(** * ReRevolve: token extraction, credential lifecycle and account switching

    A shallow embedding of the TypeScript sources of the ReRevolve extension:
    - [TokenService] (token-service.ts): the protobuf (TLV) decoder
      [readVarint] / [skipField] / [findField] / [parseOAuthTokenInfo], the
      extraction strategies, and the credential lifecycle [getToken],
      [hasToken], [captureCurrentToken];
    - [AccountSwitcher] (account-switcher.ts): [switchToAccount].

    Modelling conventions.
    - A JavaScript string is a [jstr]: the list of its UTF-16 code units.
      [.length] is the list length and regular expressions without the [u]
      flag work on code units, as here.
    - A Node [Buffer] is a [list N] of bytes (each below 256).
    - Exceptions are values of [exn], thrown inside the [res] monad; a
      [try]/[catch] of the source is a [match] on [res].
    - [readVarint] accumulates in exact arithmetic; the source accumulates
      in doubles, which agree with it on every value below 2^53.
    - Bit operations on numbers ([&], [>>]) first convert to a signed 32-bit
      integer ([toInt32]), as JavaScript does. *)

From Stdlib Require Import ZArith NArith Ascii String Bool Lia Sorted.
From stdpp Require Import base list gmap strings.

Open Scope Z_scope.

(** ** JavaScript strings *)

Abbreviation jstr := (list Z).

(** A string literal of the source (ASCII). *)
Definition js (s : string) : jstr :=
  map (fun c => Z.of_nat (nat_of_ascii c)) (list_ascii_of_string s).

(** [\s] of JavaScript regular expressions and the set removed by
    [String.prototype.trim]. *)
Definition is_js_space (c : Z) : bool :=
  (9 <=? c) && (c <=? 13) || (c =? 32) || (c =? 160) || (c =? 5760)
  || (8192 <=? c) && (c <=? 8202) || (c =? 8232) || (c =? 8233)
  || (c =? 8239) || (c =? 8287) || (c =? 12288) || (c =? 65279).

Fixpoint drop_spaces (s : jstr) : jstr :=
  match s with
  | c :: s' => if is_js_space c then drop_spaces s' else s
  | [] => []
  end.

(** [String.prototype.trim]. *)
Definition trim (s : jstr) : jstr := rev (drop_spaces (rev (drop_spaces s))).

(** [String.prototype.toLowerCase] on the ASCII letters (other code units
    are kept). *)
Definition toLowerCase (s : jstr) : jstr :=
  map (fun c => if (65 <=? c) && (c <=? 90) then c + 32 else c) s.

(** JavaScript truthiness of a value of type [string | undefined]. *)
Definition truthy (o : option jstr) : bool :=
  match o with Some (_ :: _) => true | _ => false end.

(** ** Exceptions *)

Inductive exn :=
  | TruncatedData                 (* Error('Incomplete varint') *)
  | UnknownWireType (wt : Z)      (* Error(`Unknown wire type: ...`) *)
  | TypeError
  | SyntaxError.                  (* JSON.parse *)

Inductive res (A : Type) := Ok (a : A) | Err (e : exn).
Arguments Ok {A} a.
Arguments Err {A} e.

#[global] Instance res_ret : MRet res := fun A a => Ok a.
#[global] Instance res_bind : MBind res := fun A B f m =>
  match m with Ok a => f a | Err e => Err e end.

(** ToInt32 of a number that is an integer. *)
Definition toInt32 (z : Z) : Z :=
  let m := z mod 2 ^ 32 in if 2 ^ 31 <=? m then m - 2 ^ 32 else m.

(** ** TLV (protobuf) decoder *)
Module TLV.

Abbreviation buffer := (list N).

(** [data.subarray(start, end)]: clamped to the buffer. *)
Definition subarray (data : buffer) (start end_ : nat) : buffer :=
  firstn (end_ - start) (drop start data).

Fixpoint readVarint_go (l : buffer) (result shift : N) (pos : nat)
    : res (N * nat) :=
  match l with
  | [] => Err TruncatedData
  | byte :: l' =>
      let result' := (result + N.land byte 127 * 2 ^ shift)%N in
      if N.eqb (N.land byte 128) 0 then Ok (result', S pos)
      else readVarint_go l' result' (shift + 7)%N (S pos)
  end.

(** [readVarint(data, offset)]: the loop runs over [data[offset..]]. *)
Definition readVarint (data : buffer) (offset : nat) : res (N * nat) :=
  readVarint_go (drop offset data) 0 0 offset.

Definition skipField (data : buffer) (offset : nat) (wireType : Z) : res nat :=
  if wireType =? 0 then '(_, newOffset) ← readVarint data offset; mret newOffset
  else if wireType =? 1 then mret (offset + 8)%nat
  else if wireType =? 2 then
    '(length, contentOffset) ← readVarint data offset;
    mret (contentOffset + N.to_nat length)%nat
  else if wireType =? 5 then mret (offset + 4)%nat
  else Err (UnknownWireType wireType).

Definition wireTypeOf (tag : N) : Z := Z.land (toInt32 (Z.of_N tag)) 7.
Definition fieldNumOf (tag : N) : Z := Z.shiftr (toInt32 (Z.of_N tag)) 3.

(** The [while (offset < data.length)] loop of [findField]; every round
    moves [offset] forward, so [length data + 1] rounds are enough. *)
Fixpoint findField_loop (fuel : nat) (data : buffer) (targetField : Z)
    (offset : nat) : res (option buffer) :=
  match fuel with
  | O => Ok None
  | S fuel' =>
      if Nat.ltb offset (length data) then
        match readVarint data offset with
        | Err _ => Ok None                                  (* catch: break *)
        | Ok (tag, newOffset) =>
            let wireType := wireTypeOf tag in
            let fieldNum := fieldNumOf tag in
            if (fieldNum =? targetField) && (wireType =? 2) then
              '(length, contentOffset) ← readVarint data newOffset;
              mret (Some (subarray data contentOffset
                            (contentOffset + N.to_nat length)))
            else
              offset' ← skipField data newOffset wireType;
              findField_loop fuel' data targetField offset'
        end
      else Ok None
  end.

Definition findField (data : buffer) (targetField : Z) : res (option buffer) :=
  findField_loop (S (length data)) data targetField 0.

(** *** [Buffer.toString()]: UTF-8 decoding (WHATWG, with U+FFFD) *)

(** Reads [n] continuation bytes, the first one in [lo..hi]; on failure
    returns the input from the offending byte on. *)
Fixpoint utf8_cont (n : nat) (lo hi : N) (cp : N) (l : buffer)
    : (N * buffer) + buffer :=
  match n with
  | O => inl (cp, l)
  | S n' =>
      match l with
      | b :: l' =>
          if (lo <=? b)%N && (b <=? hi)%N
          then utf8_cont n' 128 191 (cp * 64 + (b - 128))%N l'
          else inr l
      | [] => inr []
      end
  end.

(** Code units of a code point (surrogate pair above U+FFFF). *)
Definition utf16_units (cp : N) : jstr :=
  if (cp <? 65536)%N then [Z.of_N cp]
  else let c := (cp - 65536)%N in
       [55296 + Z.of_N (N.shiftr c 10); 56320 + Z.of_N (N.land c 1023)].

(** Lead byte: number of continuation bytes, bounds of the first one and
    the payload bits; [None] for a byte that cannot start a sequence. *)
Definition utf8_lead (b : N) : option (nat * N * N * N) :=
  if (b <? 194)%N then None
  else if (b <=? 223)%N then Some (1%nat, 128%N, 191%N, (b - 192)%N)
  else if (b =? 224)%N then Some (2%nat, 160%N, 191%N, 0%N)
  else if (b =? 237)%N then Some (2%nat, 128%N, 159%N, 13%N)
  else if (b <=? 239)%N then Some (2%nat, 128%N, 191%N, (b - 224)%N)
  else if (b =? 240)%N then Some (3%nat, 144%N, 191%N, 0%N)
  else if (b <=? 243)%N then Some (3%nat, 128%N, 191%N, (b - 240)%N)
  else if (b =? 244)%N then Some (3%nat, 128%N, 143%N, 4%N)
  else None.

Fixpoint utf8_decode_go (fuel : nat) (l : buffer) : jstr :=
  match fuel with
  | O => []
  | S fuel' =>
      match l with
      | [] => []
      | b :: l' =>
          if (b <? 128)%N then Z.of_N b :: utf8_decode_go fuel' l'
          else match utf8_lead b with
               | None => 65533 :: utf8_decode_go fuel' l'
               | Some (n, lo, hi, cp) =>
                   match utf8_cont n lo hi cp l' with
                   | inl (cp', rest) => utf16_units cp' ++ utf8_decode_go fuel' rest
                   | inr rest => 65533 :: utf8_decode_go fuel' rest
                   end
               end
      end
  end.

Definition toString (data : buffer) : jstr := utf8_decode_go (length data) data.

(** *** [parseOAuthTokenInfo] *)

Record TokenInfo := { accessToken : option jstr; refreshToken : option jstr }.

Definition emptyInfo : TokenInfo := {| accessToken := None; refreshToken := None |}.

(** One round of the loop body inside its [try]. *)
Definition parseOAuth_step (data : buffer) (offset : nat) (info : TokenInfo)
    : res (nat * TokenInfo) :=
  '(tag, newOffset) ← readVarint data offset;
  let wireType := wireTypeOf tag in
  let fieldNum := fieldNumOf tag in
  if wireType =? 2 then
    '(length, contentOffset) ← readVarint data newOffset;
    let value := subarray data contentOffset (contentOffset + N.to_nat length) in
    let offset' := (contentOffset + N.to_nat length)%nat in
    if fieldNum =? 1 then
      mret (offset', {| accessToken := Some (toString value);
                        refreshToken := refreshToken info |})
    else if fieldNum =? 3 then
      mret (offset', {| accessToken := accessToken info;
                        refreshToken := Some (toString value) |})
    else mret (offset', info)
  else
    offset' ← skipField data newOffset wireType;
    mret (offset', info).

Fixpoint parseOAuth_loop (fuel : nat) (data : buffer) (offset : nat)
    (info : TokenInfo) : TokenInfo :=
  match fuel with
  | O => info
  | S fuel' =>
      if Nat.ltb offset (length data) then
        match parseOAuth_step data offset info with
        | Ok (offset', info') => parseOAuth_loop fuel' data offset' info'
        | Err _ => info                                       (* catch: break *)
        end
      else info
  end.

Definition parseOAuthTokenInfo (data : buffer) : TokenInfo :=
  parseOAuth_loop (S (length data)) data 0 emptyInfo.

End TLV.

(** *** Test-side encoder: the well-formed buffers of the properties *)
Module Encode.
Import TLV.

Fixpoint encodeVarint_go (fuel : nat) (v : N) : buffer :=
  match fuel with
  | O => [v]
  | S f => if (v <? 128)%N then [v]
           else (v mod 128 + 128)%N :: encodeVarint_go f (v / 128)%N
  end.

Definition encodeVarint (v : N) : buffer := encodeVarint_go (N.to_nat (N.size v)) v.

(** Field values by wire type: varint (0), 64-bit (1), length-delimited (2)
    and 32-bit (5). *)
Inductive payload :=
  | PVarint (v : N)
  | PI64 (b : buffer)
  | PLen (b : buffer)
  | PI32 (b : buffer).

Record field := { fnum : N; fval : payload }.

Definition wt_of (p : payload) : N :=
  match p with PVarint _ => 0 | PI64 _ => 1 | PLen _ => 2 | PI32 _ => 5 end%N.

Definition body_of (p : payload) : buffer :=
  match p with
  | PVarint v => encodeVarint v
  | PI64 b | PI32 b => b
  | PLen b => encodeVarint (N.of_nat (length b)) ++ b
  end.

Definition tag_of (f : field) : N := (fnum f * 8 + wt_of (fval f))%N.

Definition encodeField (f : field) : buffer := encodeVarint (tag_of f) ++ body_of (fval f).

Definition encodeMessage (fs : list field) : buffer := concat (map encodeField fs).

(** A field of a valid protobuf message: field number below 2^29, fixed
    widths of 8 and 4 bytes. *)
Definition wf_field (f : field) : Prop :=
  (fnum f < 2 ^ 29)%N /\
  match fval f with
  | PI64 b => length b = 8%nat
  | PI32 b => length b = 4%nat
  | _ => True
  end.

(** The loop [while (offset < data.length)] of [findField] with no field
    selected: read a tag, skip the value; the final offset. *)
Fixpoint skipAll (fuel : nat) (data : buffer) (offset : nat) : res nat :=
  match fuel with
  | O => Ok offset
  | S fuel' =>
      if Nat.ltb offset (length data) then
        '(tag, newOffset) ← readVarint data offset;
        offset' ← skipField data newOffset (wireTypeOf tag);
        skipAll fuel' data offset'
      else Ok offset
  end.

(** Following the spec's words for [findField]: the payload of the first
    length-delimited field numbered [target], if any. *)
Fixpoint spec_firstLengthDelimited (fs : list field) (target : N) : option buffer :=
  match fs with
  | [] => None
  | {| fnum := n; fval := PLen b |} :: fs' =>
      if (n =? target)%N then Some b else spec_firstLengthDelimited fs' target
  | _ :: fs' => spec_firstLengthDelimited fs' target
  end.

(** The payload of the last length-delimited field numbered [target],
    if any: the field a decoder that keeps overwriting reports. *)
Fixpoint lastLengthDelimited (fs : list field) (target : N) : option buffer :=
  match fs with
  | [] => None
  | f :: fs' =>
      match lastLengthDelimited fs' target with
      | Some b => Some b
      | None =>
          match fval f with
          | PLen b => if (fnum f =? target)%N then Some b else None
          | _ => None
          end
      end
  end.

(** The two-level shape of the token blob: the token message (access
    token in field 1, refresh token in field 3) carried as the payload of
    the length-delimited field [k]. *)
Definition tokenMessage (a r : buffer) : buffer :=
  encodeMessage [{| fnum := 1; fval := PLen a |}; {| fnum := 3; fval := PLen r |}].

Definition wrapField (k : N) (m : buffer) : buffer :=
  encodeMessage [{| fnum := k; fval := PLen m |}].

End Encode.

(** ** Credential extraction strategies *)
Module Extraction.
Import TLV.

(** *** [Buffer.from(s, 'base64')]: both alphabets, [=] ends the data,
    other characters are skipped. *)
Definition unbase64 (c : Z) : option N :=
  if (65 <=? c) && (c <=? 90) then Some (Z.to_N (c - 65))
  else if (97 <=? c) && (c <=? 122) then Some (Z.to_N (c - 71))
  else if (48 <=? c) && (c <=? 57) then Some (Z.to_N (c + 4))
  else if (c =? 43) || (c =? 45) then Some 62%N
  else if (c =? 47) || (c =? 95) then Some 63%N
  else None.

Fixpoint base64_sextets (s : jstr) : list N :=
  match s with
  | [] => []
  | c :: s' =>
      if c =? 61 then []
      else match unbase64 c with
           | Some v => v :: base64_sextets s'
           | None => base64_sextets s'
           end
  end.

Fixpoint base64_pack (l : list N) : buffer :=
  match l with
  | a :: b :: c :: d :: l' =>
      [(a * 4 + b / 16)%N; ((b mod 16) * 16 + c / 4)%N; ((c mod 4) * 64 + d)%N]
        ++ base64_pack l'
  | [a; b; c] => [(a * 4 + b / 16)%N; ((b mod 16) * 16 + c / 4)%N]
  | [a; b] => [(a * 4 + b / 16)%N]
  | _ => []
  end.

Definition base64_decode (s : jstr) : buffer := base64_pack (base64_sextets s).

(** *** Regular expressions *)

Fixpoint prefixb (p s : jstr) : bool :=
  match p, s with
  | [], _ => true
  | a :: p', b :: s' => (a =? b) && prefixb p' s'
  | _ :: _, [] => false
  end.

(** Length of the longest prefix of [s] in the class [p]. *)
Fixpoint run (p : Z -> bool) (s : jstr) : nat :=
  match s with c :: s' => if p c then S (run p s') else O | [] => O end.

Definition in_range (lo hi c : Z) : bool := (lo <=? c) && (c <=? hi).

(** [[a-zA-Z0-9_-]] *)
Definition is_tok (c : Z) : bool :=
  in_range 97 122 c || in_range 65 90 c || in_range 48 57 c || (c =? 95) || (c =? 45).

(** [[a-zA-Z0-9+/=_-]] *)
Definition is_b64 (c : Z) : bool := is_tok c || (c =? 43) || (c =? 47) || (c =? 61).

(** A pattern anchored at the start of a string: the length of the
    (greedy) match there and the reported text ([match[0]] or group 1). *)
Abbreviation matcher := (jstr -> option (nat * jstr)).

(** [prefix [class]{lo,hi}]; [hi = None] for an unbounded repetition. *)
Definition rep_match (prefix : jstr) (cls : Z -> bool) (lo : nat) (hi : option nat)
    : matcher := fun s =>
  if prefixb prefix s then
    let n := run cls (drop (length prefix) s) in
    let n' := match hi with Some h => Nat.min n h | None => n end in
    if Nat.leb lo n then Some ((length prefix + n')%nat, firstn (length prefix + n') s)
    else None
  else None.

(** [/eWEyOS[a-zA-Z0-9+/=_-]{50,300}/g] *)
Definition base64Regex : matcher := rep_match (js "eWEyOS") is_b64 50 (Some 300%nat).
(** [/ya29\.[a-zA-Z0-9_-]{100,}/g] *)
Definition directRegex : matcher := rep_match (js "ya29.") is_tok 100 None.
(** [/ya29\.[a-zA-Z0-9_-]+/] *)
Definition ya29Regex : matcher := rep_match (js "ya29.") is_tok 1 None.
(** [/1\/[a-zA-Z0-9_-]{40,150}/g] *)
Definition refreshRegex1 : matcher := rep_match (js "1/") is_tok 40 (Some 150%nat).
(** [/1\/\/[a-zA-Z0-9_-]{30,150}/g] *)
Definition refreshRegex2 : matcher := rep_match (js "1//") is_tok 30 (Some 150%nat).

(** [/"refresh_token"\s*:\s*"([^"]{30,200})"/g]; the group is reported.
    [\s*] cannot give back characters to [:] or ["], and [[^"]{30,200}"]
    matches exactly when the run of non-quote units has 30 to 200 units
    and is followed by a quote. *)
Definition refreshRegex3 : matcher := fun s =>
  let p := [34] ++ js "refresh_token" ++ [34] in
  if prefixb p s then
    let s1 := drop (length p) s in
    let k1 := run is_js_space s1 in
    match drop k1 s1 with
    | 58 :: s3 =>
        let k2 := run is_js_space s3 in
        match drop k2 s3 with
        | 34 :: s5 =>
            let n := run (fun c => negb (c =? 34)) s5 in
            if Nat.leb 30 n && Nat.leb n 200 && (nth n s5 0 =? 34)
            then Some ((length p + k1 + 1 + k2 + 1 + n + 1)%nat, firstn n s5)
            else None
        | _ => None
        end
    | _ => None
    end
  else None.

(** The [while ((match = re.exec(content)) !== null)] loop of a global
    regular expression: [(match.index, text)] of each match, left to right,
    the search resuming at [lastIndex] (the end of the match). *)
Fixpoint exec_all (fuel : nat) (m : matcher) (s : jstr) (index : nat)
    : list (nat * jstr) :=
  match fuel with
  | O => []
  | S f =>
      match s with
      | [] => []
      | _ :: s' =>
          match m s with
          | Some (len, text) => (index, text) :: exec_all f m (drop len s) (index + len)
          | None => exec_all f m s' (S index)
          end
      end
  end.

Definition matchAll (m : matcher) (s : jstr) : list (nat * jstr) :=
  exec_all (length s) m s 0.

(** [s.match(re)] for a non-global [re]: the leftmost match. *)
Fixpoint firstMatch (m : matcher) (s : jstr) : option jstr :=
  match s with
  | [] => None
  | _ :: s' => match m s with Some (_, text) => Some text | None => firstMatch m s' end
  end.

(** *** [arr.sort((a, b) => a.index - b.index)]: a stable sort *)
Fixpoint insert_by_index (x : nat * jstr) (l : list (nat * jstr)) : list (nat * jstr) :=
  match l with
  | [] => [x]
  | y :: l' => if Nat.ltb (fst x) (fst y) then x :: l else y :: insert_by_index x l'
  end.

Definition sort_by_index (l : list (nat * jstr)) : list (nat * jstr) :=
  fold_left (fun acc x => insert_by_index x acc) l [].

(** The order of the comparator [(a, b) => a.index - b.index]. *)
Definition index_le (a b : nat * jstr) : Prop := (fst a <= fst b)%nat.

(** [arr[arr.length - 1]] of a non-empty array. *)
Fixpoint last_elem {A} (l : list A) : option A :=
  match l with [] => None | [x] => Some x | _ :: l' => last_elem l' end.

(** The base64 candidates: each match is decoded and kept when it holds a
    [ya29.] token longer than 100 units. *)
Definition base64Tokens (content : jstr) : list (nat * jstr) :=
  flat_map (fun '(index, text) =>
              match firstMatch ya29Regex (toString (base64_decode text)) with
              | Some token => if Nat.ltb 100 (length token) then [(index, token)] else []
              | None => []
              end)
           (matchAll base64Regex content).

Definition allTokensOf (content : jstr) : list (nat * jstr) :=
  base64Tokens content ++ matchAll directRegex content.

Definition refreshTokensOf (content : jstr) : list (nat * jstr) :=
  matchAll refreshRegex1 content ++ matchAll refreshRegex2 content
  ++ matchAll refreshRegex3 content.

Record DbTokens := { dbAccessToken : jstr; dbRefreshToken : option jstr }.

(** [extractTokensFromDb]: [file] is the content of state.vscdb, [None]
    when the file does not exist. *)
Definition extractTokensFromDb (file : option buffer) : option DbTokens :=
  match file with
  | None => None
  | Some fileBuffer =>
      let content := toString fileBuffer in
      let refreshToken :=
        match last_elem (sort_by_index (refreshTokensOf content)) with
        | Some (_, t) => Some t
        | None => None
        end in
      match last_elem (sort_by_index (allTokensOf content)) with
      | Some (_, t) => Some {| dbAccessToken := t; dbRefreshToken := refreshToken |}
      | None => None
      end
  end.




(** [getRefreshToken]: field 1 of the unified oauthToken blob. *)
Definition getRefreshToken (row : option jstr) : option jstr :=
  if truthy row then
    let raw := base64_decode (trim (default [] row)) in
    match findField raw 1 with
    | Ok (Some oauthField) =>
        let tokenInfo := parseOAuthTokenInfo oauthField in
        if truthy (refreshToken tokenInfo) then refreshToken tokenInfo else None
    | _ => None                                           (* catch: null *)
    end
  else None.

(** [extractTokenFromDb]: [result?.accessToken || null]. *)
Definition extractTokenFromDb (file : option buffer) : option jstr :=
  match extractTokensFromDb file with
  | Some tokens =>
      if truthy (Some (dbAccessToken tokens)) then Some (dbAccessToken tokens) else None
  | None => None
  end.

(** *** [getCurrentLoggedInEmail] *)

(** [s.indexOf(needle)]: [None] for [-1]. *)
Fixpoint indexOf_from (s needle : jstr) (i : nat) : option nat :=
  if prefixb needle s then Some i
  else match s with [] => None | _ :: s' => indexOf_from s' needle (S i) end.

Definition indexOf (s needle : jstr) : option nat := indexOf_from s needle 0.

(** [s.substring(start, end)] for [start <= end]: clamped to the string. *)
Definition substring (s : jstr) (start end_ : nat) : jstr :=
  firstn (end_ - start) (drop start s).

(** [s.includes(needle)]. *)
Fixpoint includes (s needle : jstr) : bool :=
  prefixb needle s || match s with [] => false | _ :: s' => includes s' needle end.

(** [[a-zA-Z0-9._%+-]] *)
Definition is_local (c : Z) : bool :=
  in_range 97 122 c || in_range 65 90 c || in_range 48 57 c
  || (c =? 46) || (c =? 95) || (c =? 37) || (c =? 43) || (c =? 45).
(** [[a-zA-Z0-9.-]] *)
Definition is_domain (c : Z) : bool :=
  in_range 97 122 c || in_range 65 90 c || in_range 48 57 c || (c =? 46) || (c =? 45).
(** [[a-zA-Z]] *)
Definition is_alpha (c : Z) : bool := in_range 97 122 c || in_range 65 90 c.

(** [[a-zA-Z0-9.-]+\.[a-zA-Z]{2,}] followed by a quote, at the start of [s], where the first
    repetition may take at most [j] units (the run of [[a-zA-Z0-9.-]]).
    The backtracking tries [j], [j-1], ..., 1 units; after them come a dot,
    the greedy run of letters (at least two) and a quote: giving back
    letters cannot help, a letter is not a quote. The length of the text
    before the quote. *)
Fixpoint domain_try (j : nat) (s : jstr) : option nat :=
  match j with
  | O => None
  | S j' =>
      match drop j s with
      | 46 :: r =>
          let L := run is_alpha r in
          if Nat.leb 2 L && (nth L r 0 =? 34) then Some (j + 1 + L)%nat
          else domain_try j' s
      | _ => domain_try j' s
      end
  end.

(** [/"email"\s*:\s*"([a-zA-Z0-9._%+-]+@[a-zA-Z0-9.-]+\.[a-zA-Z]{2,})"/];
    group 1 is reported. [\s*] cannot give back units to [:] or a quote, and
    [[a-zA-Z0-9._%+-]+@] matches only with the whole run (an [@] is not in
    the class). *)
Definition emailRegex : matcher := fun s =>
  let p := [34] ++ js "email" ++ [34] in
  if prefixb p s then
    let s1 := drop (length p) s in
    let k1 := run is_js_space s1 in
    match drop k1 s1 with
    | 58 :: s3 =>
        let k2 := run is_js_space s3 in
        match drop k2 s3 with
        | 34 :: s5 =>
            let n := run is_local s5 in
            if Nat.leb 1 n then
              match drop n s5 with
              | 64 :: s6 =>
                  match domain_try (run is_domain s6) s6 with
                  | Some m =>
                      Some ((length p + k1 + 1 + k2 + 1 + n + 1 + m + 1)%nat,
                            firstn (n + 1 + m) s5)
                  | None => None
                  end
              | _ => None
              end
            else None
        | _ => None
        end
    | _ => None
    end
  else None.

(** [searchRange.match(emailRegex)] and [emailMatch[1].toLowerCase()]. *)
Definition emailIn (range : jstr) : option jstr :=
  match firstMatch emailRegex range with
  | Some g => if truthy (Some g) then Some (toLowerCase g) else None
  | None => None
  end.

(** The strings a lowercased group 1 of [emailRegex] can be: a non-empty
    local part over [[a-z0-9._%+-]], an [@], a non-empty domain part over
    [[a-z0-9.-]], a dot and at least two letters of [[a-z]]. *)
Definition email_shape (r : jstr) : Prop :=
  exists l d tld, r = l ++ [64] ++ d ++ [46] ++ tld /\
    l <> [] /\ d <> [] /\ (2 <= length tld)%nat /\
    Forall (fun c => is_local c && negb (in_range 65 90 c) = true) l /\
    Forall (fun c => is_domain c && negb (in_range 65 90 c) = true) d /\
    Forall (fun c => in_range 97 122 c = true) tld.

Definition tierProMarker : jstr :=
  [34] ++ js "tierDescription" ++ [34] ++ js ":" ++ [34] ++ js "Google AI Pro" ++ [34].

(** The fallback: every match of the global regex, lowercased, without
    those that include [rerevolve] or [token.]. *)
Definition fallbackEmails (content : jstr) : list (nat * jstr) :=
  filter (fun '(_, e) => negb (includes e (js "rerevolve")) && negb (includes e (js "token.")))
         (map (fun '(i, g) => (i, toLowerCase g)) (matchAll emailRegex content)).

(** [getCurrentLoggedInEmail]: [file] is the content of state.vscdb, [None]
    when the file does not exist. [Math.max(0, i - 200)] is [i - 200] on
    [nat]. *)
Definition getCurrentLoggedInEmail (file : option buffer) : option jstr :=
  match file with
  | None => None
  | Some fileBuffer =>
      let content := toString fileBuffer in
      let fromUserInfo :=
        match indexOf content (js "tfa.lastUserInfo") with
        | Some i => emailIn (substring content i (i + 500))
        | None => None
        end in
      match fromUserInfo with
      | Some e => Some e
      | None =>
          let fromAuthStatus :=
            match indexOf content (js "antigravityAuthStatus") with
            | Some i => emailIn (substring content i (i + 2000))
            | None => None
            end in
          match fromAuthStatus with
          | Some e => Some e
          | None =>
              let fromTier :=
                match indexOf content tierProMarker with
                | Some i => emailIn (substring content (i - 200) (i + 100))
                | None => None
                end in
              match fromTier with
              | Some e => Some e
              | None =>
                  match last_elem (sort_by_index (fallbackEmails content)) with
                  | Some (_, e) => Some e
                  | None => None
                  end
              end
          end
      end
  end.

End Extraction.

(** ** Credential lifecycle ([TokenService]) *)
Module Lifecycle.

Definition TOKEN_PREFIX : jstr := js "rerevolve.token.".
Definition SKEW : Z := 5 * 60 * 1000.
Definition RECOVERY_TTL : Z := 55 * 60 * 1000.

(** [interface StoredCredential]. *)
Record StoredCredential := {
  accessToken : jstr;
  refreshToken : option jstr;
  expiresAt : Z;
  email : jstr;
  createdAt : Z }.

(** The object returned by [getAuthStatus]: [{ email?, apiKey? }]. *)
Module Auth.
Record AuthStatus := { email : option jstr; apiKey : option jstr }.
End Auth.

(** What the code makes visible outside the secret store: calls of the
    refresh exchange and of the recovery, and the messages shown. *)
Inductive event :=
  | ERefresh                                    (* refreshAccessToken *)
  | ERecover (email : jstr)                     (* tryAutoRecovery *)
  | EMismatchWarning (currentEmail email : jstr)
  | EShowInfo
  | EShowWarning
  | EShowError.

Record tstate := { secrets : gmap jstr jstr; events : list event }.

(** The host: the clock, the content of state.vscdb and the two rows the
    code reads with sql.js, and the token endpoint (the
    [{access_token, expires_in}] of a 2xx answer, [None] on a network error
    or another status). *)
Record host := {
  now : Z;
  stateDb : option TLV.buffer;
  authStatusRow : option jstr;
  oauthTokenRow : option jstr;
  tokenEndpoint : jstr -> option (jstr * Z) }.

Definition M (A : Type) : Type := tstate -> A * tstate.

#[global] Instance M_ret : MRet M := fun A a st => (a, st).
#[global] Instance M_bind : MBind M := fun A B f m st =>
  let '(a, st') := m st in f a st'.

(** [secrets.get], [secrets.store]. *)
Definition secret_get (k : jstr) : M (option jstr) := fun st => (secrets st !! k, st).
Definition secret_store (k v : jstr) : M unit := fun st =>
  (tt, {| secrets := <[k := v]> (secrets st); events := events st |}).
Definition emit (e : event) : M unit := fun st =>
  (tt, {| secrets := secrets st; events := events st ++ [e] |}).
(** [secrets.delete]. *)
Definition secret_delete (k : jstr) : M unit := fun st =>
  (tt, {| secrets := delete k (secrets st); events := events st |}).

(** The JSON body of a 2xx answer of the token endpoint to an
    authorization code. *)
Record TokenResponse := {
  access_token : option jstr;
  refresh_token : option jstr;
  expires_in : Z }.

Section TokenService.

(** [JSON.parse] read at the types the code ascribes to its results
    ([None] when it throws), and [JSON.stringify]. *)
Variable JSON_parse_cred : jstr -> option StoredCredential.
Variable JSON_parse_auth : jstr -> option Auth.AuthStatus.
Variable JSON_stringify : StoredCredential -> jstr.
Variable env : host.
(** The authorization-code exchange: the body of the answer, [None] when
    the answer is not 2xx or when [fetch] or [response.json()] throws. *)
Variable codeExchange : jstr -> option TokenResponse.

Definition key (email : jstr) : jstr := TOKEN_PREFIX ++ email.

Definition refreshAccessToken (credential : StoredCredential)
    : M (option (jstr * Z)) :=
  emit ERefresh;;
  mret (match refreshToken credential with
        | Some rt =>
            if truthy (Some rt) then
              match tokenEndpoint env rt with
              | Some (access_token, expires_in) =>
                  Some (access_token, now env + expires_in * 1000)
              | None => None
              end
            else None
        | None => None
        end).

Definition tryAutoRecovery (email : jstr) : M bool :=
  emit (ERecover email);;
  match Extraction.extractTokensFromDb (stateDb env) with
  | None => mret false
  | Some tokens =>
      secret_store (key email)
        (JSON_stringify {| accessToken := Extraction.dbAccessToken tokens;
                           refreshToken := Extraction.dbRefreshToken tokens;
                           expiresAt := now env + RECOVERY_TTL;
                           email := email;
                           createdAt := now env |});;
      emit EShowInfo;;
      mret true
  end.

(** The [try] block of [getToken]; [Err] when a [JSON.parse] throws. *)
Definition getToken_try (email stored : jstr) : M (res (option jstr)) :=
  match JSON_parse_cred stored with
  | None => mret (Err SyntaxError)
  | Some credential =>
      if now env >? expiresAt credential - SKEW then
        refreshed ← refreshAccessToken credential;
        match refreshed with
        | Some (newToken, newExpiry) =>
            secret_store (key email)
              (JSON_stringify {| accessToken := newToken;
                                 refreshToken := refreshToken credential;
                                 expiresAt := newExpiry;
                                 email := Lifecycle.email credential;
                                 createdAt := createdAt credential |});;
            mret (Ok (Some newToken))
        | None =>
            recovered ← tryAutoRecovery email;
            if (recovered : bool) then
              newStored ← secret_get (key email);
              match newStored with
              | Some ns =>
                  if truthy (Some ns) then
                    match JSON_parse_cred ns with
                    | Some newCredential => mret (Ok (Some (accessToken newCredential)))
                    | None => mret (Err SyntaxError)
                    end
                  else mret (Ok (Some (accessToken credential)))
              | None => mret (Ok (Some (accessToken credential)))
              end
            else mret (Ok (Some (accessToken credential)))
        end
      else mret (Ok (Some (accessToken credential)))
  end.

Definition getToken (email : jstr) : M (option jstr) :=
  stored0 ← secret_get (key email);
  stored ← (if truthy stored0 then mret stored0
            else recovered ← tryAutoRecovery email;
                 if (recovered : bool) then secret_get (key email) else mret stored0);
  match stored with
  | Some s =>
      if truthy (Some s) then
        r ← getToken_try email s;
        match r with
        | Ok v => mret v
        | Err _ => mret (if Nat.ltb 10 (length s) then Some s else None)  (* catch *)
        end
      else mret None
  | None => mret None
  end.

Definition hasToken (email : jstr) : M bool :=
  stored ← secret_get (key email);
  match stored with
  | None => mret false
  | Some s =>
      if Nat.leb (length s) 10 then mret false
      else match JSON_parse_cred s with
           | None => mret false
           | Some credential =>
               if now env <=? expiresAt credential - SKEW then mret true
               else mret (truthy (refreshToken credential))
           end
  end.

(** [getAuthStatus]: the JSON of the row [antigravityAuthStatus]. *)
Definition getAuthStatus : option Auth.AuthStatus :=
  match authStatusRow env with
  | Some v => if truthy (Some v) then JSON_parse_auth v else None
  | None => None
  end.

Definition captureCurrentToken (email : jstr) : M bool :=
  match getAuthStatus with
  | None => emit EShowError;; mret false
  | Some authStatus =>
      let currentEmail := option_map toLowerCase (Auth.email authStatus) in
      let accessToken := Auth.apiKey authStatus in
      match currentEmail, accessToken with
      | Some ce, Some at_ =>
          if truthy (Some ce) && truthy (Some at_) then
            let refreshToken := Extraction.getRefreshToken (oauthTokenRow env) in
            (if bool_decide (toLowerCase email = ce) then mret tt
             else emit (EMismatchWarning ce email));;
            secret_store (key ce)
              (JSON_stringify {| accessToken := at_;
                                 refreshToken := refreshToken;
                                 expiresAt := now env + RECOVERY_TTL;
                                 email := ce;
                                 createdAt := now env |});;
            emit EShowInfo;;
            mret true
          else emit EShowError;; mret false
      | _, _ => emit EShowError;; mret false
      end
  end.

Definition deleteToken (email : jstr) : M unit := secret_delete (key email).

Definition saveToken (email tokenData : jstr) : M unit := secret_store (key email) tokenData.

(** [exchangeCodeForToken]; every failure shows an error message. *)
Definition exchangeCodeForToken (code email : jstr) : M bool :=
  match codeExchange code with
  | None => emit EShowError;; mret false
  | Some data =>
      match access_token data with
      | Some at_ =>
          if truthy (Some at_) then
            secret_store (key email)
              (JSON_stringify {| accessToken := at_;
                                 refreshToken := refresh_token data;
                                 expiresAt := now env + expires_in data * 1000;
                                 email := email;
                                 createdAt := now env |});;
            emit EShowInfo;;
            mret true
          else emit EShowError;; mret false
      | None => emit EShowError;; mret false
      end
  end.

(** [promptForAuthCode]: [code] is the result of the input box, [None]
    when it is dismissed; a dismissed or empty input shows the warning
    [인증이 취소되었습니다.] ([EShowWarning]). *)
Definition promptForAuthCode (code : option jstr) (email : jstr) : M bool :=
  if truthy code then
    match code with
    | Some c => exchangeCodeForToken (trim c) email
    | None => mret false
    end
  else emit EShowWarning;; mret false.

Definition hasValidOAuth (email : jstr) : M bool :=
  stored ← secret_get (key email);
  match stored with
  | Some s =>
      if truthy (Some s) then
        match JSON_parse_cred s with
        | Some credential => mret (truthy (refreshToken credential))
        | None => mret false                                  (* catch *)
        end
      else mret false
  | None => mret false
  end.

End TokenService.

End Lifecycle.

(** ** Account switching ([AccountSwitcher]) *)
Module Switcher.

(** [interface AccountSnapshot]. *)
Record AccountSnapshot := { email : jstr; authStatus : jstr; savedAt : Z }.

Definition AUTH_KEY : jstr := js "antigravityAuthStatus".

(** The result of [snapshots[email]] on the object built by [JSON.parse]:
    an own property, a property inherited from [Object.prototype] (a
    truthy function or object), or [undefined]. *)
Inductive lookup_result :=
  | Own (s : AccountSnapshot)
  | Inherited
  | Undefined.

Definition objectPrototypeNames : list jstr :=
  map js ["constructor"; "__proto__"; "toString"; "toLocaleString"; "valueOf";
          "hasOwnProperty"; "isPrototypeOf"; "propertyIsEnumerable";
          "__defineGetter__"; "__defineSetter__"; "__lookupGetter__";
          "__lookupSetter__"]%string.

Definition snapshot_get (snapshots : gmap jstr AccountSnapshot) (k : jstr)
    : lookup_result :=
  match snapshots !! k with
  | Some s => Own s
  | None => if bool_decide (k ∈ objectPrototypeNames) then Inherited else Undefined
  end.

(** [authStatus.replace(/'/g, "''")]. *)
Definition escapeQuotes (s : jstr) : jstr :=
  flat_map (fun c => if c =? 39 then [39; 39] else [c]) s.

(** The command passed to [exec] by [updateAuthStatus]. *)
Definition updateCommand (dbPathForward authStatus : jstr) : jstr :=
  js "sqlite3 " ++ [34] ++ dbPathForward ++ [34] ++ js " " ++ [34]
  ++ js "UPDATE ItemTable SET value='" ++ escapeQuotes authStatus
  ++ js "' WHERE key='antigravityAuthStatus'" ++ [34].

(** *** The shell that runs the command ([/bin/sh -c]) *)

Inductive qmode := Plain | InDouble | InSingle.

(** Characters with a meaning to the shell outside quotes (escapes,
    expansions, operators, globbing) and inside double quotes ([\], [$],
    [`]): their handling is not modelled, [sh_words] gives [None]. *)
Definition sh_special (c : Z) : bool :=
  existsb (Z.eqb c) [92; 36; 96; 59; 38; 124; 60; 62; 40; 41; 42; 63; 91; 35; 126].
Definition dq_special (c : Z) : bool := existsb (Z.eqb c) [92; 36; 96].
Definition sh_blank (c : Z) : bool := (c =? 32) || (c =? 9) || (c =? 10).

(** Word splitting and quote removal of POSIX sh on the characters above:
    a double or single quote opens a quoted region that ends at the next
    quote of the same kind, quotes are removed, and blanks outside quotes
    separate the words. *)
Fixpoint sh_go (s : jstr) (mode : qmode) (cur : jstr) (started : bool)
    (words : list jstr) : option (list jstr) :=
  let flush := if started then words ++ [cur] else words in
  match s with
  | [] => match mode with Plain => Some flush | _ => None end
  | c :: s' =>
      match mode with
      | Plain =>
          if sh_blank c then sh_go s' Plain [] false flush
          else if c =? 34 then sh_go s' InDouble cur true words
          else if c =? 39 then sh_go s' InSingle cur true words
          else if sh_special c then None
          else sh_go s' Plain (cur ++ [c]) true words
      | InDouble =>
          if c =? 34 then sh_go s' Plain cur true words
          else if dq_special c then None
          else sh_go s' InDouble (cur ++ [c]) true words
      | InSingle =>
          if c =? 39 then sh_go s' Plain cur true words
          else sh_go s' InSingle (cur ++ [c]) true words
      end
  end.

Definition sh_words (cmd : jstr) : option (list jstr) := sh_go cmd Plain [] false [].

(** *** sqlite3 running [UPDATE ItemTable SET value='..' WHERE key='..'] *)

(** The body of an SQL string literal after its opening quote: [''] stands
    for one quote; returns the value and the text after the closing quote. *)
Fixpoint sql_literal (s : jstr) : option (jstr * jstr) :=
  match s with
  | [] => None
  | c :: s' =>
      if c =? 39 then
        match s' with
        | 39 :: s'' => match sql_literal s'' with
                       | Some (v, r) => Some (39 :: v, r)
                       | None => None
                       end
        | _ => Some ([], s')
        end
      else match sql_literal s' with
           | Some (v, r) => Some (c :: v, r)
           | None => None
           end
  end.

(** The statement [UPDATE ItemTable SET value=<lit> WHERE key=<lit>]: the
    new value and the key; [None] when sqlite3 rejects the text. *)
Definition parse_update (sql : jstr) : option (jstr * jstr) :=
  let p1 := js "UPDATE ItemTable SET value='" in
  let p2 := js " WHERE key='" in
  if Extraction.prefixb p1 sql then
    match sql_literal (drop (length p1) sql) with
    | Some (value, r) =>
        if Extraction.prefixb p2 r then
          match sql_literal (drop (length p2) r) with
          | Some (k, []) => Some (value, k)
          | _ => None
          end
        else None
    | None => None
    end
  else None.

(** [exec(cmd, cb)] with the sqlite3 command line: [Some (ok, table)] with
    [ok = false] when sqlite3 fails (the table is untouched); [None] when
    the command line is outside the modelled shell. The UPDATE changes the
    row only when the key exists. *)
Definition exec_update (table : gmap jstr jstr) (cmd : jstr)
    : option (bool * gmap jstr jstr) :=
  match sh_words cmd with
  | Some [_; _; sql] =>
      match parse_update sql with
      | Some (value, k) =>
          Some (true, match table !! k with
                      | Some _ => <[k := value]> table
                      | None => table
                      end)
      | None => Some (false, table)
      end
  | _ => None
  end.

(** [switchToAccount(email)] over the loaded snapshots and the ItemTable of
    state.vscdb: the result, the table afterwards and the commands run. *)
Definition switchToAccount (dbPathForward : jstr)
    (snapshots : gmap jstr AccountSnapshot) (table : gmap jstr jstr) (email : jstr)
    : option (bool * gmap jstr jstr * list jstr) :=
  match snapshot_get snapshots email with
  | Undefined => Some (false, table, [])
  | Inherited =>
      (* [snapshot.authStatus] is undefined: [.replace] throws a TypeError
         in the Promise executor; the rejection is caught: false *)
      Some (false, table, [])
  | Own snapshot =>
      let cmd := updateCommand dbPathForward (authStatus snapshot) in
      match exec_update table cmd with
      | Some (success, table') => Some (success, table', [cmd])
      | None => None
      end
  end.

(** *** The snapshot store *)

Definition SNAPSHOTS_KEY : jstr := js "rerevolve_snapshots".

(** [parsed.email] and [parsed.name] of an auth status blob. *)
Record Identity := { id_email : option jstr; id_name : option jstr }.

(** An [AccountSwitcher]: its [snapshotsCache] and the entry
    [SNAPSHOTS_KEY] of the secret storage. The object in the cache is the
    one [loadSnapshots] returns and the callers mutate, so a mutation is a
    new cache value. *)
Record swstate := {
  snapshotsCache : option (gmap jstr AccountSnapshot);
  storedSnapshots : option jstr }.

Section Snapshots.

(** [JSON.parse] at the types the code ascribes ([None] when it throws)
    and [JSON.stringify]. *)
Variable JSON_parse_snapshots : jstr -> option (gmap jstr AccountSnapshot).
Variable JSON_stringify_snapshots : gmap jstr AccountSnapshot -> jstr.
Variable JSON_parse_identity : jstr -> option Identity.

Definition loadSnapshots (st : swstate) : gmap jstr AccountSnapshot * swstate :=
  match snapshotsCache st with
  | Some cache => (cache, st)
  | None =>
      let snapshots :=
        match storedSnapshots st with
        | Some data =>
            if truthy (Some data) then
              match JSON_parse_snapshots data with
              | Some parsed => parsed
              | None => ∅                                   (* catch *)
              end
            else ∅
        | None => ∅
        end in
      (snapshots, {| snapshotsCache := Some snapshots;
                     storedSnapshots := storedSnapshots st |})
  end.

Definition saveSnapshots (snapshots : gmap jstr AccountSnapshot) : swstate :=
  {| snapshotsCache := Some snapshots;
     storedSnapshots := Some (JSON_stringify_snapshots snapshots) |}.

(** [readAuthStatus]: [stdout] of the SELECT, [None] when [exec] reports
    an error. *)
Definition readAuthStatus (stdout : option jstr) : option jstr :=
  match stdout with
  | Some out => if truthy (Some (trim out)) then Some (trim out) else None
  | None => None
  end.

(** [parsed.email || parsed.name || 'unknown'], ['unknown'] when the parse
    throws. *)
Definition snapshotEmail (authStatus : jstr) : jstr :=
  match JSON_parse_identity authStatus with
  | Some parsed =>
      if truthy (id_email parsed) then default [] (id_email parsed)
      else if truthy (id_name parsed) then default [] (id_name parsed)
      else js "unknown"
  | None => js "unknown"
  end.

(** [saveSnapshot()] at time [now] with the output [stdout] of the SELECT.
    [None] when the key is [__proto__]: the assignment then sets the
    prototype of the object, which is not modelled. *)
Definition saveSnapshot (now : Z) (stdout : option jstr) (st : swstate)
    : option (bool * swstate) :=
  match readAuthStatus stdout with
  | None => Some (false, st)
  | Some authStatus =>
      let email := snapshotEmail authStatus in
      if bool_decide (email = js "__proto__") then None
      else
        let '(snapshots, _) := loadSnapshots st in
        Some (true, saveSnapshots (<[email := {| email := email;
                                                 authStatus := authStatus;
                                                 savedAt := now |}]> snapshots))
  end.

Definition getSnapshots (st : swstate) : gmap jstr AccountSnapshot * swstate :=
  loadSnapshots st.

(** [Object.keys(snapshots).length]. *)
Definition getSnapshotCount (st : swstate) : nat * swstate :=
  let '(snapshots, st1) := loadSnapshots st in (size snapshots, st1).

(** [deleteSnapshot(email)]: [delete] of a property that is not an own
    property changes nothing. *)
Definition deleteSnapshot (email : jstr) (st : swstate) : bool * swstate :=
  let '(snapshots, st1) := loadSnapshots st in
  match snapshot_get snapshots email with
  | Own _ => (true, saveSnapshots (delete email snapshots))
  | Inherited => (true, saveSnapshots snapshots)
  | Undefined => (false, st1)
  end.

End Snapshots.

End Switcher.

(** ** Sample inputs *)
Module Samples.
Import TLV Encode.

(** A JSON string literal ["s"]. *)
Definition dq (s : string) : jstr := [34] ++ js s ++ [34].

(** An identity blob [{"email":"a@x.com"}] and a table holding an older one. *)
Definition blob : jstr := js "{" ++ dq "email" ++ js ":" ++ dq "a@x.com" ++ js "}".
Definition table0 : gmap jstr jstr := <[Switcher.AUTH_KEY := js "{}"]> ∅.
Definition snapshots0 : gmap jstr Switcher.AccountSnapshot :=
  <[js "a@x.com" := {| Switcher.email := js "a@x.com"; Switcher.authStatus := blob;
                       Switcher.savedAt := 0 |}]> ∅.
Definition dbPath0 : jstr := js "C:/Users/u/AppData/Roaming/Antigravity/User/globalStorage/state.vscdb".

(** A store file with two [ya29.] tokens, at offsets 100 and 500. *)
Definition bearer (c : Z) : jstr := js "ya29." ++ repeat c 120.
Definition scanFile : buffer :=
  map Z.to_N (repeat 46 100 ++ bearer 65 ++ repeat 46 275 ++ bearer 66 ++ repeat 46 10).



(** A credential and a JSON codec that knows its text. *)
Definition cred0 (expiry : Z) (rt : option jstr) : Lifecycle.StoredCredential :=
  {| Lifecycle.accessToken := js "ya29.cached"; Lifecycle.refreshToken := rt;
     Lifecycle.expiresAt := expiry; Lifecycle.email := js "a@x.com";
     Lifecycle.createdAt := 0 |}.
Definition credText : jstr := js "{...credential...}".
Definition parse0 (c : Lifecycle.StoredCredential) (s : jstr)
    : option Lifecycle.StoredCredential :=
  if bool_decide (s = credText) then Some c else None.
Definition stringify0 (c : Lifecycle.StoredCredential) : jstr := credText.

(** A JSON codec for the auth status row of [host0]: the active identity
    is [B@x.com]. *)
Definition authText : jstr := js "{...auth...}".
Definition parseAuth0 (s : jstr) : option Lifecycle.Auth.AuthStatus :=
  if bool_decide (s = authText)
  then Some {| Lifecycle.Auth.email := Some (js "B@x.com");
               Lifecycle.Auth.apiKey := Some (js "ya29.key") |}
  else None.

Definition host0 (t : Z) (db : option buffer) : Lifecycle.host :=
  {| Lifecycle.now := t; Lifecycle.stateDb := db;
     Lifecycle.authStatusRow := Some authText;
     Lifecycle.oauthTokenRow := None;
     Lifecycle.tokenEndpoint := fun _ => None |}.

Definition state0 (stored : jstr) : Lifecycle.tstate :=
  {| Lifecycle.secrets := <[Lifecycle.key (js "a@x.com") := stored]> ∅;
     Lifecycle.events := [] |}.

(** The credential [tryAutoRecovery] stores at t = 0 for [scanFile]: the
    token at the greatest offset, no refresh token, 55 minutes. *)
Definition credRecovered : Lifecycle.StoredCredential :=
  {| Lifecycle.accessToken := bearer 66; Lifecycle.refreshToken := None;
     Lifecycle.expiresAt := Lifecycle.RECOVERY_TTL; Lifecycle.email := js "a@x.com";
     Lifecycle.createdAt := 0 |}.

(** A token endpoint that answers the code [4/code] with a one-hour
    access token and a refresh token, and the credential stored for it at
    t = 0. *)
Definition exchange0 (code : jstr) : option Lifecycle.TokenResponse :=
  if bool_decide (code = js "4/code")
  then Some {| Lifecycle.access_token := Some (js "ya29.new");
               Lifecycle.refresh_token := Some (js "1//r");
               Lifecycle.expires_in := 3600 |}
  else None.

(** A JSON codec for the snapshots entry holding [snapshots0], and one for
    the identity in [blob]. *)
Definition snapshotsText : jstr := js "{...snapshots...}".
Definition parseSnapshots0 (s : jstr) : option (gmap jstr Switcher.AccountSnapshot) :=
  if bool_decide (s = snapshotsText) then Some snapshots0 else None.
Definition stringifySnapshots0 (m : gmap jstr Switcher.AccountSnapshot) : jstr :=
  snapshotsText.
Definition parseIdentity0 (s : jstr) : option Switcher.Identity :=
  if bool_decide (s = blob)
  then Some {| Switcher.id_email := Some (js "a@x.com"); Switcher.id_name := None |}
  else None.
Definition swstate0 : Switcher.swstate :=
  {| Switcher.snapshotsCache := None; Switcher.storedSnapshots := Some snapshotsText |}.

(** A token message with field 1 twice, a varint field 2 between them and
    field 3 once. *)
Definition tokenFields : list field :=
  [{| fnum := 1; fval := PLen (map Z.to_N (js "old")) |};
   {| fnum := 2; fval := PVarint 300 |};
   {| fnum := 1; fval := PLen (map Z.to_N (js "new")) |};
   {| fnum := 3; fval := PLen (map Z.to_N (js "1//r")) |}].

(** A store file with the [tfa.lastUserInfo] marker and an email after it,
    and one with none of the markers and two emails. *)
Definition emailFile : buffer :=
  map Z.to_N (js "xx" ++ js "tfa.lastUserInfo" ++ js "{" ++ dq "email" ++ js ": "
              ++ dq "Alice.B@Mail.Example.COM" ++ js "}").
Definition fallbackFile : buffer :=
  map Z.to_N (dq "email" ++ js ":" ++ dq "Bob@Site.org" ++ js ","
              ++ dq "email" ++ js ":" ++ dq "bot@rerevolve.dev").

End Samples.

(** * Proofs *)

(** ** The TLV decoder on well-formed buffers *)
Module TLVProofs.
Import TLV Encode.

Lemma bind_Ok {A B} (a : A) (f : A -> res B) : (Ok a ≫= f) = f a.
Proof. reflexivity. Qed.

Lemma land_127 (x : N) : N.land x 127 = (x mod 128)%N.
Proof. change 127%N with (N.ones 7). rewrite N.land_ones. reflexivity. Qed.

Lemma land_128 (b : N) :
  (b < 256)%N -> N.land b 128 = (if (b <? 128)%N then 0 else 128)%N.
Proof.
  intros Hb.
  assert (H : forallb (fun n => let b := N.of_nat n in
                 N.eqb (N.land b 128) (if (b <? 128)%N then 0 else 128)%N)
                (seq 0 256) = true) by (vm_compute; reflexivity).
  rewrite forallb_forall in H.
  specialize (H (N.to_nat b)). rewrite N2Nat.id in H.
  apply N.eqb_eq, H. apply in_seq. lia.
Qed.

Lemma readVarint_go_encode fuel : forall v r s pos rest,
  (v < 2 ^ (7 * N.of_nat fuel))%N ->
  readVarint_go (encodeVarint_go fuel v ++ rest) r s pos =
    Ok ((r + v * 2 ^ s)%N, (pos + length (encodeVarint_go fuel v))%nat).
Proof.
  induction fuel as [|fuel IH]; intros v r s pos rest Hv.
  - simpl in Hv. assert (v = 0%N) by lia. subst v. simpl.
    f_equal. f_equal; lia.
  - cbn [encodeVarint_go]. destruct (v <? 128)%N eqn:E.
    + apply N.ltb_lt in E. cbn [app readVarint_go length].
      rewrite land_128 by lia. rewrite (proj2 (N.ltb_lt v 128) E).
      rewrite land_127, N.mod_small by lia. simpl. f_equal. f_equal; lia.
    + apply N.ltb_ge in E.
      assert (Hm : (v mod 128 < 128)%N) by (apply N.mod_lt; lia).
      cbn [app readVarint_go length].
      rewrite land_128 by lia.
      rewrite (proj2 (N.ltb_ge (v mod 128 + 128) 128)) by apply N.le_add_l.
      simpl N.eqb. cbv iota beta.
      rewrite land_127.
      replace ((v mod 128 + 128) mod 128)%N with (v mod 128)%N.
      2:{ replace (v mod 128 + 128)%N with (v mod 128 + 1 * 128)%N by ring.
          rewrite N.Div0.mod_add, N.Div0.mod_mod. reflexivity. }
      rewrite IH.
      2:{ apply N.Div0.div_lt_upper_bound.
          rewrite Nat2N.inj_succ in Hv.
          replace (7 * N.succ (N.of_nat fuel))%N with (7 * N.of_nat fuel + 7)%N in Hv by lia.
          rewrite N.pow_add_r in Hv. change (2 ^ 7)%N with 128%N in Hv. lia. }
      f_equal. f_equal.
      * rewrite N.pow_add_r. change (2 ^ 7)%N with 128%N.
        pose proof (N.div_mod v 128 ltac:(lia)) as Hd.
        set (P := (2 ^ s)%N) in *. set (d := (v / 128)%N) in *.
        set (m := (v mod 128)%N) in *. rewrite Hd. ring.
      * lia.
Qed.

Lemma encodeVarint_bound (v : N) :
  (v < 2 ^ (7 * N.of_nat (N.to_nat (N.size v))))%N.
Proof.
  rewrite N2Nat.id. eapply N.lt_le_trans; [apply N.size_gt|].
  apply N.pow_le_mono_r; lia.
Qed.

Lemma readVarint_encode (pre : buffer) (v : N) (rest : buffer) :
  readVarint (pre ++ encodeVarint v ++ rest) (length pre) =
    Ok (v, (length pre + length (encodeVarint v))%nat).
Proof.
  unfold readVarint. rewrite drop_app_length.
  unfold encodeVarint. rewrite readVarint_go_encode by apply encodeVarint_bound.
  f_equal. f_equal. simpl. lia.
Qed.

Lemma encodeVarint_length (v : N) : (1 <= length (encodeVarint v))%nat.
Proof. unfold encodeVarint. destruct (N.to_nat (N.size v)); simpl; [lia|].
  destruct (v <? 128)%N; simpl; lia. Qed.

Lemma toInt32_low (t : Z) : Z.land (toInt32 t) 7 = t mod 8.
Proof.
  unfold toInt32. change 7 with (Z.ones 3). rewrite Z.land_ones by lia.
  change (2 ^ 3) with 8.
  assert (Hq : t mod 2 ^ 32 = t + (- (t / 2 ^ 32) * 2 ^ 29) * 8).
  { rewrite Z.mod_eq by lia. change (2 ^ 32) with (2 ^ 29 * 8). ring. }
  destruct (2 ^ 31 <=? t mod 2 ^ 32).
  - replace (t mod 2 ^ 32 - 2 ^ 32) with (t + ((- (t / 2 ^ 32) - 1) * 2 ^ 29) * 8)
      by (rewrite Hq; change (2 ^ 32) with (2 ^ 29 * 8); ring).
    apply Z_mod_plus_full.
  - rewrite Hq. apply Z_mod_plus_full.
Qed.

Lemma wireTypeOf_tag (f : field) : wireTypeOf (tag_of f) = Z.of_N (wt_of (fval f)).
Proof.
  unfold wireTypeOf, tag_of. rewrite toInt32_low.
  destruct (fval f); simpl wt_of; Z.div_mod_to_equations; lia.
Qed.

Lemma fieldNumOf_tag (f : field) (target : N) :
  wf_field f -> (target < 2 ^ 28)%N ->
  (fieldNumOf (tag_of f) =? Z.of_N target) = (fnum f =? target)%N.
Proof.
  intros [Hn _] Ht. unfold fieldNumOf, tag_of, toInt32.
  assert (Hw : (wt_of (fval f) < 8)%N) by (destruct (fval f); simpl; lia).
  set (t := Z.of_N (fnum f * 8 + wt_of (fval f))).
  assert (Ht0 : 0 <= t < 2 ^ 32) by (subst t; lia).
  rewrite (Z.mod_small t) by lia.
  destruct (N.lt_ge_cases (fnum f) (2 ^ 28)) as [Hs | Hs].
  - replace (2 ^ 31 <=? t) with false by (symmetry; apply Z.leb_gt; subst t; lia).
    rewrite Z.shiftr_div_pow2 by lia. change (2 ^ 3) with 8.
    replace (t / 8) with (Z.of_N (fnum f)) by (subst t; Z.div_mod_to_equations; lia).
    destruct (Z.of_N (fnum f) =? Z.of_N target) eqn:E1;
    destruct (fnum f =? target)%N eqn:E2; try reflexivity;
      [apply Z.eqb_eq in E1; apply N.eqb_neq in E2
      |apply Z.eqb_neq in E1; apply N.eqb_eq in E2]; lia.
  - replace (2 ^ 31 <=? t) with true by (symmetry; apply Z.leb_le; subst t; lia).
    rewrite Z.shiftr_div_pow2 by lia. change (2 ^ 3) with 8.
    replace ((t - 2 ^ 32) / 8 =? Z.of_N target) with false
      by (symmetry; apply Z.eqb_neq; subst t; Z.div_mod_to_equations; lia).
    symmetry. apply N.eqb_neq. lia.
Qed.

Lemma skipField_body (pre : buffer) (f : field) (rest : buffer) :
  wf_field f ->
  skipField (pre ++ body_of (fval f) ++ rest) (length pre) (Z.of_N (wt_of (fval f)))
    = Ok (length pre + length (body_of (fval f)))%nat.
Proof.
  intros [_ Hf]. unfold skipField.
  destruct (fval f) as [v|b|b|b]; simpl wt_of; simpl body_of; cbn -[readVarint].
  - rewrite readVarint_encode. reflexivity.
  - rewrite Hf. reflexivity.
  - rewrite <- app_assoc, readVarint_encode, bind_Ok. cbn.
    rewrite Nat2N.id, length_app. f_equal. lia.
  - rewrite Hf. reflexivity.
Qed.

(** One field: the tag is read, then [skipField] lands on the next field. *)
Lemma field_step (pre : buffer) (f : field) (rest : buffer) :
  wf_field f ->
  readVarint (pre ++ encodeField f ++ rest) (length pre)
    = Ok (tag_of f, (length pre + length (encodeVarint (tag_of f)))%nat) /\
  skipField (pre ++ encodeField f ++ rest)
            (length pre + length (encodeVarint (tag_of f)))
            (wireTypeOf (tag_of f))
    = Ok (length pre + length (encodeField f))%nat.
Proof.
  intros Hf. unfold encodeField. rewrite <- app_assoc. split.
  - apply readVarint_encode.
  - rewrite app_assoc, <- length_app, wireTypeOf_tag, skipField_body by exact Hf.
    rewrite !length_app. f_equal. lia.
Qed.

Lemma encodeField_length (f : field) : (1 <= length (encodeField f))%nat.
Proof. unfold encodeField. rewrite length_app. pose proof (encodeVarint_length (tag_of f)). lia. Qed.

Lemma encodeMessage_cons (f : field) (fs : list field) :
  encodeMessage (f :: fs) = encodeField f ++ encodeMessage fs.
Proof. reflexivity. Qed.

Lemma encodeMessage_app (fs gs : list field) :
  encodeMessage (fs ++ gs) = encodeMessage fs ++ encodeMessage gs.
Proof. unfold encodeMessage. rewrite map_app, concat_app. reflexivity. Qed.

Lemma encodeMessage_length (fs : list field) : (length fs <= length (encodeMessage fs))%nat.
Proof.
  induction fs as [|f fs IH]; simpl; [lia|].
  rewrite encodeMessage_cons, length_app. pose proof (encodeField_length f). lia.
Qed.

Lemma skipAll_encode (fs : list field) : forall pre fuel,
  Forall wf_field fs -> (length fs < fuel)%nat ->
  skipAll fuel (pre ++ encodeMessage fs) (length pre)
    = Ok (length pre + length (encodeMessage fs))%nat.
Proof.
  induction fs as [|f fs IH]; intros pre fuel Hwf Hfuel;
    destruct fuel as [|fuel]; try (simpl in Hfuel; lia).
  - cbn [skipAll]. simpl encodeMessage. rewrite app_nil_r.
    rewrite Nat.ltb_irrefl. simpl. f_equal. lia.
  - inversion Hwf as [|? ? Hf Hfs]; subst.
    cbn [skipAll]. rewrite encodeMessage_cons.
    pose proof (encodeField_length f) as Hl.
    rewrite (proj2 (Nat.ltb_lt _ _)) by (rewrite !length_app; lia).
    destruct (field_step pre f (encodeMessage fs) Hf) as [H1 H2].
    rewrite H1, bind_Ok. cbv beta iota. rewrite H2, bind_Ok.
    rewrite app_assoc.
    replace (length pre + length (encodeField f))%nat with (length (pre ++ encodeField f))
      by apply length_app.
    rewrite IH by (simpl in Hfuel; auto with lia).
    rewrite !length_app. f_equal. lia.
Qed.

Lemma subarray_mid (pre b rest : buffer) :
  subarray (pre ++ b ++ rest) (length pre) (length pre + length b) = b.
Proof.
  unfold subarray. rewrite drop_app_length.
  replace (length pre + length b - length pre)%nat with (length b) by lia.
  apply take_app_length.
Qed.

Lemma spec_first_skip (pre : list field) (target : N) (b : buffer) (post : list field) :
  Forall (fun f => fnum f <> target) pre ->
  spec_firstLengthDelimited (pre ++ {| fnum := target; fval := PLen b |} :: post) target
    = Some b.
Proof.
  induction 1 as [|[n p] pre Hn Hpre IH]; simpl.
  - rewrite N.eqb_refl. reflexivity.
  - simpl in Hn. destruct p; try exact IH.
    rewrite (proj2 (N.eqb_neq n target) Hn). exact IH.
Qed.

(** [findField] on a well-formed message agrees with the spec's reading. *)
Lemma findField_loop_encode (fs : list field) (target : N) : forall pre fuel,
  Forall wf_field fs -> (target < 2 ^ 28)%N -> (length fs < fuel)%nat ->
  findField_loop fuel (pre ++ encodeMessage fs) (Z.of_N target) (length pre)
    = Ok (spec_firstLengthDelimited fs target).
Proof.
  induction fs as [|f fs IH]; intros pre fuel Hwf Ht Hfuel;
    destruct fuel as [|fuel]; try (simpl in Hfuel; lia).
  - cbn [findField_loop]. simpl encodeMessage. rewrite app_nil_r.
    rewrite (proj2 (Nat.ltb_ge _ _)) by lia. reflexivity.
  - inversion Hwf as [|? ? Hf Hfs]; subst.
    cbn [findField_loop]. rewrite encodeMessage_cons.
    pose proof (encodeField_length f) as Hl.
    rewrite (proj2 (Nat.ltb_lt _ _)) by (rewrite !length_app; lia).
    destruct (field_step pre f (encodeMessage fs) Hf) as [H1 H2].
    rewrite H1. cbv beta iota zeta.
    rewrite (fieldNumOf_tag f target Hf Ht), wireTypeOf_tag.
    assert (Hnext : findField_loop fuel ((pre ++ encodeField f) ++ encodeMessage fs)
                      (Z.of_N target) (length (pre ++ encodeField f))
                    = Ok (spec_firstLengthDelimited fs target))
      by (apply IH; auto; simpl in Hfuel; lia).
    rewrite <- app_assoc, length_app in Hnext. rewrite wireTypeOf_tag in H2.
    destruct ((fnum f =? target)%N && (Z.of_N (wt_of (fval f)) =? 2)) eqn:Ec.
    + destruct f as [n p]; destruct p as [v|b|b|b]; simpl in Ec;
        rewrite ?andb_false_r in Ec; try discriminate.
      rewrite andb_true_r in Ec. simpl. rewrite Ec.
      unfold encodeField. simpl body_of.
      rewrite <- !app_assoc, <- length_app, (app_assoc pre).
      rewrite readVarint_encode, bind_Ok. cbn. rewrite Nat2N.id.
      rewrite <- length_app, (app_assoc _ (encodeVarint _)).
      rewrite subarray_mid. reflexivity.
    + rewrite H2, bind_Ok.
      replace (spec_firstLengthDelimited (f :: fs) target)
        with (spec_firstLengthDelimited fs target); [exact Hnext|].
      destruct f as [n p]; destruct p as [v|b|b|b]; simpl in Ec |- *; try reflexivity.
      rewrite andb_true_r in Ec. rewrite Ec. reflexivity.
Qed.

Lemma findField_encode (fs : list field) (target : N) :
  Forall wf_field fs -> (target < 2 ^ 28)%N ->
  findField (encodeMessage fs) (Z.of_N target) = Ok (spec_firstLengthDelimited fs target).
Proof.
  intros Hwf Ht. unfold findField.
  apply (findField_loop_encode fs target [] _ Hwf Ht).
  pose proof (encodeMessage_length fs). lia.
Qed.

End TLVProofs.

(** ** Claims on the TLV decoder and the structured strategy *)
Module TLVClaims.
Import TLV Encode Extraction TLVProofs Samples.


Lemma toString_ascii (T : jstr) :
  Forall (fun c => 0 <= c < 128) T -> toString (map Z.to_N T) = T.
Proof.
  intros HT. unfold toString. rewrite length_map.
  enough (H : forall fuel, (length T <= fuel)%nat ->
                 utf8_decode_go fuel (map Z.to_N T) = T) by (apply H; lia).
  induction HT as [|c T Hc HT IH]; intros fuel Hfuel; destruct fuel; simpl in *;
    try reflexivity; try lia.
  rewrite (proj2 (N.ltb_lt (Z.to_N c) 128)) by lia.
  rewrite Z2N.id by lia. f_equal. apply IH. lia.
Qed.

(** One round of [parseOAuthTokenInfo] on a length-delimited field. *)
Lemma parseOAuth_step_len (pre : buffer) (n : N) (b rest : buffer) (info : TokenInfo) :
  (n < 2 ^ 28)%N ->
  parseOAuth_step (pre ++ encodeField {| fnum := n; fval := PLen b |} ++ rest)
                  (length pre) info
  = Ok ((length pre + length (encodeField {| fnum := n; fval := PLen b |}))%nat,
        if (n =? 1)%N then {| accessToken := Some (toString b);
                              refreshToken := refreshToken info |}
        else if (n =? 3)%N then {| accessToken := accessToken info;
                                   refreshToken := Some (toString b) |}
        else info).
Proof.
  intros Hn.
  assert (Hf : wf_field {| fnum := n; fval := PLen b |}) by (split; simpl; [lia | exact I]).
  destruct (field_step pre _ rest Hf) as [H1 _].
  pose proof (fieldNumOf_tag _ 1 Hf ltac:(lia)) as E1.
  pose proof (fieldNumOf_tag _ 3 Hf ltac:(lia)) as E3.
  change (Z.of_N 1) with 1 in E1. change (Z.of_N 3) with 3 in E3.
  unfold parseOAuth_step. rewrite H1, bind_Ok. cbv beta iota zeta.
  rewrite wireTypeOf_tag. change (Z.of_N (wt_of (fval {| fnum := n; fval := PLen b |})) =? 2)
    with true. cbv iota.
  rewrite E1, E3. cbn [fnum].
  unfold encodeField. simpl body_of.
  rewrite <- !app_assoc, (app_assoc pre), <- length_app.
  rewrite readVarint_encode, bind_Ok. cbv beta iota zeta.
  rewrite Nat2N.id, <- length_app, (app_assoc _ (encodeVarint _)), subarray_mid.
  replace (length ((pre ++ encodeVarint (tag_of {| fnum := n; fval := PLen b |}))
                   ++ encodeVarint (N.of_nat (length b))) + length b)%nat
    with (length pre + length (encodeVarint (tag_of {| fnum := n; fval := PLen b |})
                               ++ encodeVarint (N.of_nat (length b)) ++ b))%nat
    by (rewrite !length_app; lia).
  destruct (n =? 1)%N; [reflexivity|]. destruct (n =? 3)%N; reflexivity.
Qed.

(** The token message decodes to its two fields. *)
Lemma parseOAuth_tokenMessage (a r : buffer) :
  parseOAuthTokenInfo (tokenMessage a r) =
    {| accessToken := Some (toString a); refreshToken := Some (toString r) |}.
Proof.
  set (f1 := {| fnum := 1; fval := PLen a |}).
  set (f2 := {| fnum := 3; fval := PLen r |}).
  assert (Hd : tokenMessage a r = encodeField f1 ++ encodeField f2 ++ [])
    by (unfold tokenMessage; rewrite !encodeMessage_cons; reflexivity).
  pose proof (encodeField_length f1) as L1. pose proof (encodeField_length f2) as L2.
  unfold parseOAuthTokenInfo. rewrite Hd.
  assert (HL : length (encodeField f1 ++ encodeField f2 ++ []) =
               (length (encodeField f1) + length (encodeField f2))%nat)
    by (rewrite !length_app; simpl; lia).
  replace (S (length (encodeField f1 ++ encodeField f2 ++ [])))
    with (S (S (S (length (encodeField f1 ++ encodeField f2 ++ []) - 2)))) by lia.
  cbn [parseOAuth_loop].
  rewrite (proj2 (Nat.ltb_lt _ _)) by lia.
  pose proof (parseOAuth_step_len [] 1 a (encodeField f2 ++ []) emptyInfo ltac:(lia)) as S1.
  cbn [app length Nat.add] in S1. fold f1 in S1. rewrite S1. cbv iota. simpl (1 =? 1)%N. cbv iota.
  rewrite (proj2 (Nat.ltb_lt _ _)) by lia.
  pose proof (parseOAuth_step_len (encodeField f1) 3 r []
     {| accessToken := Some (toString a); refreshToken := refreshToken emptyInfo |}
     ltac:(lia)) as S2.
  fold f2 in S2. rewrite S2. cbv iota. simpl (3 =? 1)%N. simpl (3 =? 3)%N. cbv iota.
  rewrite (proj2 (Nat.ltb_ge _ _)) by lia. reflexivity.
Qed.

(** C7: on a well-formed TLV buffer, at a field boundary, the tag read
    gives the field's wire type and [skipField] moves exactly past the
    field's value to the next boundary; [skipField] fails with
    [UnknownWireType] for every wire type outside {0,1,2,5}; and reading
    tags and skipping values from offset 0 ends exactly at the buffer's
    length. *)
Theorem skipField_advances_one_field :
  (forall (pre : buffer) (f : field) (rest : buffer), wf_field f ->
     readVarint (pre ++ encodeField f ++ rest) (length pre)
       = Ok (tag_of f, (length pre + length (encodeVarint (tag_of f)))%nat) /\
     wireTypeOf (tag_of f) = Z.of_N (wt_of (fval f)) /\
     skipField (pre ++ encodeField f ++ rest)
       (length pre + length (encodeVarint (tag_of f))) (wireTypeOf (tag_of f))
       = Ok (length pre + length (encodeField f))%nat) /\
  (forall (data : buffer) (offset : nat) (wt : Z),
     wt <> 0 -> wt <> 1 -> wt <> 2 -> wt <> 5 ->
     skipField data offset wt = Err (UnknownWireType wt)) /\
  (forall fs : list field, Forall wf_field fs ->
     skipAll (S (length (encodeMessage fs))) (encodeMessage fs) 0
       = Ok (length (encodeMessage fs))).
Proof.
  split; [|split].
  - intros pre f rest Hf. destruct (field_step pre f rest Hf) as [H1 H2].
    split; [exact H1 | split; [apply wireTypeOf_tag | exact H2]].
  - intros data offset wt H0 H1 H2 H5. unfold skipField.
    rewrite (proj2 (Z.eqb_neq wt 0) H0), (proj2 (Z.eqb_neq wt 1) H1),
            (proj2 (Z.eqb_neq wt 2) H2), (proj2 (Z.eqb_neq wt 5) H5).
    reflexivity.
  - intros fs Hwf. apply (skipAll_encode fs [] _ Hwf).
    pose proof (encodeMessage_length fs). lia.
Qed.

(** A message of the four wire types: 1 = varint 300, 2 = "hi",
    3 = fixed64, 4 = fixed32. *)
Lemma skipField_advances_one_field_witness :
  encodeMessage [{| fnum := 1; fval := PVarint 300 |}; {| fnum := 2; fval := PLen [104; 105]%N |};
                 {| fnum := 3; fval := PI64 (repeat 0%N 8) |}; {| fnum := 4; fval := PI32 (repeat 0%N 4) |}]
    = [8; 172; 2; 18; 2; 104; 105; 25; 0; 0; 0; 0; 0; 0; 0; 0; 37; 0; 0; 0; 0]%N /\
  skipAll 22 [8; 172; 2; 18; 2; 104; 105; 25; 0; 0; 0; 0; 0; 0; 0; 0; 37; 0; 0; 0; 0]%N 0
    = Ok 21%nat /\
  skipField [] 0 3 = Err (UnknownWireType 3).
Proof.
  split; [reflexivity|]. split.
  - exact (proj2 (proj2 skipField_advances_one_field)
             [{| fnum := 1; fval := PVarint 300 |}; {| fnum := 2; fval := PLen [104; 105]%N |};
              {| fnum := 3; fval := PI64 (repeat 0%N 8) |}; {| fnum := 4; fval := PI32 (repeat 0%N 4) |}]
             ltac:(repeat constructor)).
  - exact (proj1 (proj2 skipField_advances_one_field) [] 0%nat 3
             ltac:(discriminate) ltac:(discriminate) ltac:(discriminate) ltac:(discriminate)).
Defined.






(** C9: encoding an access token [T] and a refresh token [R] (ASCII) as
    fields 1 and 3 of a message carried by the length-delimited field [k],
    then decoding with [findField] and [parseOAuthTokenInfo], gives back
    exactly [{accessToken: T, refreshToken: R}]. *)
Theorem token_roundtrip (k : N) (T R : jstr) :
  (k < 2 ^ 28)%N ->
  Forall (fun c => 0 <= c < 128) T -> Forall (fun c => 0 <= c < 128) R ->
  exists inner,
    findField (wrapField k (tokenMessage (map Z.to_N T) (map Z.to_N R))) (Z.of_N k)
      = Ok (Some inner) /\
    parseOAuthTokenInfo inner = {| accessToken := Some T; refreshToken := Some R |}.
Proof.
  intros Hk HT HR. exists (tokenMessage (map Z.to_N T) (map Z.to_N R)). split.
  - unfold wrapField. rewrite findField_encode; [| | exact Hk].
    + simpl. rewrite N.eqb_refl. reflexivity.
    + constructor; [split; simpl; [lia | exact I] | constructor].
  - rewrite parseOAuth_tokenMessage, !toString_ascii by assumption. reflexivity.
Qed.

Lemma token_roundtrip_witness :
  exists inner,
    findField (wrapField 6 (tokenMessage (map Z.to_N (js "T")) (map Z.to_N (js "R")))) 6
      = Ok (Some inner) /\
    parseOAuthTokenInfo inner = {| accessToken := Some (js "T"); refreshToken := Some (js "R") |}.
Proof.
  apply (token_roundtrip 6 (js "T") (js "R")); [reflexivity | repeat constructor; simpl; lia ..].
Defined.


End TLVClaims.

(** ** The byte-scan strategy picks the last match *)
Module ScanProofs.
Import TLV Extraction Samples.

Lemma insert_by_index_perm (x : nat * jstr) (l : list (nat * jstr)) :
  insert_by_index x l ≡ₚ x :: l.
Proof.
  induction l as [|y l IH]; simpl; [reflexivity|].
  destruct (fst x <? fst y)%nat; [reflexivity|].
  rewrite IH. constructor.
Qed.

Lemma sort_by_index_perm (l : list (nat * jstr)) : sort_by_index l ≡ₚ l.
Proof.
  unfold sort_by_index.
  enough (H : forall acc, fold_left (fun acc x => insert_by_index x acc) l acc ≡ₚ l ++ acc)
    by (rewrite H, app_nil_r; reflexivity).
  induction l as [|x l IH]; intros acc; simpl; [reflexivity|].
  rewrite IH, insert_by_index_perm. symmetry. apply Permutation_middle.
Qed.

Lemma insert_by_index_sorted (x : nat * jstr) (l : list (nat * jstr)) :
  StronglySorted index_le l -> StronglySorted index_le (insert_by_index x l).
Proof.
  induction 1 as [|y l Hl IH Hy]; simpl.
  - repeat constructor.
  - destruct (fst x <? fst y)%nat eqn:E.
    + apply Nat.ltb_lt in E. constructor; [constructor; assumption|].
      constructor; [unfold index_le; lia|].
      eapply Forall_impl; [exact Hy|]. unfold index_le. intros z Hz. lia.
    + apply Nat.ltb_ge in E. constructor; [exact IH|].
      apply List.Forall_forall. intros z Hz.
      apply (Permutation_in _ (insert_by_index_perm x l)) in Hz.
      destruct Hz as [<- | Hz]; [unfold index_le; lia|].
      rewrite List.Forall_forall in Hy. auto.
Qed.

Lemma sort_by_index_sorted (l : list (nat * jstr)) : StronglySorted index_le (sort_by_index l).
Proof.
  unfold sort_by_index.
  enough (H : forall acc, StronglySorted index_le acc ->
                StronglySorted index_le (fold_left (fun acc x => insert_by_index x acc) l acc))
    by (apply H; constructor).
  induction l as [|x l IH]; intros acc Hacc; simpl; [exact Hacc|].
  apply IH, insert_by_index_sorted, Hacc.
Qed.

Lemma last_elem_max (l : list (nat * jstr)) (y : nat * jstr) :
  StronglySorted index_le l -> last_elem l = Some y ->
  In y l /\ forall z, In z l -> (fst z <= fst y)%nat.
Proof.
  induction 1 as [|x l Hl IH Hx]; [discriminate|].
  destruct l as [|w l'].
  - simpl. intros [= <-]. split; [left; reflexivity|]. intros z [<- | []]. lia.
  - intros Hlast. change (last_elem (w :: l') = Some y) in Hlast.
    destruct (IH Hlast) as [Hin Hmax]. split; [right; exact Hin|].
    intros z [<- | Hz]; [|auto].
    rewrite List.Forall_forall in Hx. apply (Hx y Hin).
Qed.

Lemma last_elem_some {A} (l : list A) : l <> [] -> exists y, last_elem l = Some y.
Proof.
  induction l as [|x l IH]; [congruence|]. intros _.
  destruct l as [|w l']; [eexists; reflexivity|].
  apply IH. discriminate.
Qed.

(** The entry the code takes from a list of matches: one of them, at the
    greatest index. *)
Lemma last_of_sorted_max (l : list (nat * jstr)) (y : nat * jstr) :
  last_elem (sort_by_index l) = Some y ->
  In y l /\ forall z, In z l -> (fst z <= fst y)%nat.
Proof.
  intros H. destruct (last_elem_max _ y (sort_by_index_sorted l) H) as [Hin Hmax].
  split.
  - exact (Permutation_in _ (sort_by_index_perm l) Hin).
  - intros z Hz. apply Hmax.
    exact (Permutation_in _ (Permutation_sym (sort_by_index_perm l)) Hz).
Qed.

Lemma sort_by_index_nonempty (l : list (nat * jstr)) : l <> [] -> sort_by_index l <> [].
Proof.
  intros Hl Hs. apply Hl. apply Permutation_nil. rewrite <- Hs.
  apply sort_by_index_perm.
Qed.

(** C5: when the scan finds access-token matches, [extractTokensFromDb]
    returns the token of a match at the greatest index (the position of
    the match in the decoded file content), and for the
    refresh token the one of a refresh match at the greatest index (none
    when there is no refresh match). *)
Theorem scan_picks_last_offset (file : buffer) :
  allTokensOf (toString file) <> [] ->
  exists t, extractTokensFromDb (Some file) = Some t /\
    (exists i, In (i, dbAccessToken t) (allTokensOf (toString file)) /\
       forall j t', In (j, t') (allTokensOf (toString file)) -> (j <= i)%nat) /\
    ((refreshTokensOf (toString file) = [] /\ dbRefreshToken t = None) \/
     (exists r i, dbRefreshToken t = Some r /\ In (i, r) (refreshTokensOf (toString file)) /\
        forall j t', In (j, t') (refreshTokensOf (toString file)) -> (j <= i)%nat)).
Proof.
  intros Hne. unfold extractTokensFromDb.
  set (content := toString file) in *.
  destruct (last_elem_some _ (sort_by_index_nonempty _ Hne)) as [[i t] Hlast].
  rewrite Hlast. eexists. split; [reflexivity|]. simpl dbAccessToken. simpl dbRefreshToken.
  split.
  - exists i. destruct (last_of_sorted_max _ _ Hlast) as [Hin Hmax].
    split; [exact Hin|]. intros j t' Hj. exact (Hmax _ Hj).
  - destruct (refreshTokensOf content) as [|r0 rs] eqn:Er.
    + left. split; [reflexivity|]. reflexivity.
    + right. rewrite <- Er.
      destruct (last_elem_some (sort_by_index (refreshTokensOf content)))
        as [[ir r] Hr]; [apply sort_by_index_nonempty; congruence|].
      rewrite Hr. exists r, ir. split; [reflexivity|].
      destruct (last_of_sorted_max _ _ Hr) as [Hin Hmax].
      split; [exact Hin|]. intros j t' Hj. exact (Hmax _ Hj).
Qed.

(** The scenario of the spec: bearer tokens at offsets 100 and 500; the one
    at 500 is returned. *)
Lemma scan_picks_last_offset_witness :
  map fst (allTokensOf (toString scanFile)) = [100; 500]%nat /\
  extractTokensFromDb (Some scanFile)
    = Some {| dbAccessToken := bearer 66; dbRefreshToken := None |} /\
  exists t, extractTokensFromDb (Some scanFile) = Some t /\
    (exists i, In (i, dbAccessToken t) (allTokensOf (toString scanFile)) /\
       forall j t', In (j, t') (allTokensOf (toString scanFile)) -> (j <= i)%nat) /\
    ((refreshTokensOf (toString scanFile) = [] /\ dbRefreshToken t = None) \/
     (exists r i, dbRefreshToken t = Some r /\ In (i, r) (refreshTokensOf (toString scanFile)) /\
        forall j t', In (j, t') (refreshTokensOf (toString scanFile)) -> (j <= i)%nat)).
Proof.
  split; [vm_compute; reflexivity|]. split; [vm_compute; reflexivity|].
  apply scan_picks_last_offset. vm_compute. discriminate.
Defined.

End ScanProofs.

(** ** The credential lifecycle *)
Module LifecycleProofs.
Import Lifecycle Samples.

(** [getToken] on a fresh credential. *)
Lemma getToken_fresh (parse : jstr -> option StoredCredential) (stringify : StoredCredential -> jstr)
  (env : host) (email s : jstr) (c : StoredCredential) (st : tstate) :
  parse [] = None -> secrets st !! key email = Some s -> parse s = Some c ->
  now env < expiresAt c - SKEW ->
  getToken parse stringify env email st = (Some (accessToken c), st).
Proof.
  intros H0 Hs Hc Ht.
  destruct s as [|x s']; [congruence|].
  unfold getToken, getToken_try. cbv [mbind M_bind mret M_ret secret_get]. rewrite Hs.
  cbn [truthy]. rewrite Hc.
  rewrite Z.gtb_ltb, (proj2 (Z.ltb_ge _ _)) by lia. reflexivity.
Qed.

(** [refreshAccessToken] emits its call and does not touch the secrets. *)
Lemma refreshAccessToken_run env c st :
  refreshAccessToken env c st =
    (fst (refreshAccessToken env c st), {| secrets := secrets st; events := events st ++ [ERefresh] |}).
Proof. reflexivity. Qed.

(** [getToken] on a credential within the skew of its expiry. *)
Lemma getToken_expired (parse : jstr -> option StoredCredential) (stringify : StoredCredential -> jstr)
  (env : host) (email s : jstr) (c : StoredCredential) (st : tstate) :
  parse [] = None -> secrets st !! key email = Some s -> parse s = Some c ->
  now env > expiresAt c - SKEW ->
  getToken parse stringify env email st =
    let st1 := {| secrets := secrets st; events := events st ++ [ERefresh] |} in
    match fst (refreshAccessToken env c st) with
    | Some (newToken, newExpiry) =>
        (Some newToken,
         {| secrets := <[key email := stringify {| accessToken := newToken;
                                 refreshToken := refreshToken c;
                                 expiresAt := newExpiry;
                                 email := Lifecycle.email c;
                                 createdAt := createdAt c |}]> (secrets st1);
            events := events st1 |})
    | None =>
        let '(recovered, st2) := tryAutoRecovery stringify env email st1 in
        if recovered then
          match secrets st2 !! key email with
          | Some ns =>
              if truthy (Some ns) then
                match parse ns with
                | Some nc => (Some (accessToken nc), st2)
                | None => (if Nat.ltb 10 (length s) then Some s else None, st2)
                end
              else (Some (accessToken c), st2)
          | None => (Some (accessToken c), st2)
          end
        else (Some (accessToken c), st2)
    end.
Proof.
  intros H0 Hs Hc Ht.
  destruct s as [|x s']; [congruence|].
  unfold getToken, getToken_try. cbv [mbind M_bind mret M_ret secret_get]. rewrite Hs.
  cbn [truthy]. rewrite Hc.
  rewrite (proj2 (Z.gtb_lt _ _)) by lia.
  rewrite refreshAccessToken_run. cbv zeta.
  destruct (fst (refreshAccessToken env c st)) as [[nt ne]|]; [reflexivity|].
  destruct (tryAutoRecovery stringify env email _) as [[|] st2]; [|reflexivity].
  destruct (secrets st2 !! key email) as [ns|]; [|reflexivity].
  destruct ns as [|y ns']; [reflexivity|]. cbn [truthy].
  destruct (parse (y :: ns')); reflexivity.
Qed.

Lemma tryAutoRecovery_events (stringify : StoredCredential -> jstr) env email st :
  exists rest, events (snd (tryAutoRecovery stringify env email st))
                 = events st ++ ERecover email :: rest.
Proof.
  unfold tryAutoRecovery. cbv [mbind M_bind mret M_ret emit secret_store].
  destruct (Extraction.extractTokensFromDb (stateDb env)); simpl.
  - eexists. rewrite <- !app_assoc. reflexivity.
  - exists []. reflexivity.
Qed.

Lemma tryAutoRecovery_fail (stringify : StoredCredential -> jstr) env email st :
  Extraction.extractTokensFromDb (stateDb env) = None ->
  tryAutoRecovery stringify env email st
    = (false, {| secrets := secrets st; events := events st ++ [ERecover email] |}).
Proof.
  intros H. unfold tryAutoRecovery. cbv [mbind M_bind mret M_ret emit secret_store].
  rewrite H. reflexivity.
Qed.

(** C2: with a stored credential whose expiry is within five minutes
    ([now > expiresAt - SKEW]), [getToken] first calls the refresh
    exchange; when the refresh gives nothing it calls the recovery next;
    and when the recovery finds no token in the store file as well, it
    returns the stale access token (not null), having done only these two
    attempts. *)
Theorem getToken_refresh_then_recover (parse : jstr -> option StoredCredential)
  (stringify : StoredCredential -> jstr) (env : host) (email s : jstr)
  (c : StoredCredential) (st : tstate) :
  parse [] = None -> secrets st !! key email = Some s -> parse s = Some c ->
  (now env > expiresAt c - SKEW) ->
  (exists rest, events (snd (getToken parse stringify env email st))
                  = events st ++ ERefresh :: rest) /\
  (fst (refreshAccessToken env c st) = None ->
     (exists rest, events (snd (getToken parse stringify env email st))
                     = events st ++ ERefresh :: ERecover email :: rest) /\
     (Extraction.extractTokensFromDb (stateDb env) = None ->
        getToken parse stringify env email st
          = (Some (accessToken c),
             {| secrets := secrets st; events := events st ++ [ERefresh; ERecover email] |}))).
Proof.
  intros H0 Hs Hc Ht. rewrite (getToken_expired parse stringify env email s c st H0 Hs Hc Ht).
  cbv zeta.
  assert (Hrec : exists rest,
    events (snd (let '(recovered, st2) :=
      tryAutoRecovery stringify env email
        {| secrets := secrets st; events := events st ++ [ERefresh] |} in
      if recovered then
        match secrets st2 !! key email with
        | Some ns =>
            if truthy (Some ns) then
              match parse ns with
              | Some nc => (Some (accessToken nc), st2)
              | None => (if Nat.ltb 10 (length s) then Some s else None, st2)
              end
            else (Some (accessToken c), st2)
        | None => (Some (accessToken c), st2)
        end
      else (Some (accessToken c), st2)))
    = events st ++ ERefresh :: ERecover email :: rest).
  { destruct (tryAutoRecovery_events stringify env email
                {| secrets := secrets st; events := events st ++ [ERefresh] |}) as [rest Hr].
    destruct (tryAutoRecovery stringify env email _) as [recovered st2].
    simpl in Hr. exists rest.
    assert (E : events st2 = events st ++ ERefresh :: ERecover email :: rest)
      by (rewrite Hr, <- app_assoc; reflexivity).
    destruct recovered; [|exact E].
    destruct (secrets st2 !! key email) as [ns|]; [|exact E].
    destruct (truthy (Some ns)); [|exact E].
    destruct (parse ns); exact E. }
  split.
  - destruct (fst (refreshAccessToken env c st)) as [[nt ne]|].
    + exists []. reflexivity.
    + destruct Hrec as [rest Hr]. exists (ERecover email :: rest). exact Hr.
  - intros Hnone. rewrite Hnone. split; [exact Hrec|].
    intros Hdb. rewrite tryAutoRecovery_fail by exact Hdb. simpl.
    rewrite <- app_assoc. reflexivity.
Qed.

(** C1: with a stored credential that parses and whose expiry is more than
    five minutes away ([now < expiresAt - SKEW]), [getToken] returns its
    access token and leaves the state as it was: no refresh, no recovery,
    nothing stored; a second call on the state left by the first, at
    another such time, returns the same token. *)
Theorem getToken_cached_twice (parse : jstr -> option StoredCredential)
  (stringify : StoredCredential -> jstr) (env1 env2 : host) (email s : jstr)
  (c : StoredCredential) (st : tstate) :
  parse [] = None -> secrets st !! key email = Some s -> parse s = Some c ->
  now env1 < expiresAt c - SKEW -> now env2 < expiresAt c - SKEW ->
  getToken parse stringify env1 email st = (Some (accessToken c), st) /\
  getToken parse stringify env2 email (snd (getToken parse stringify env1 email st))
    = (Some (accessToken c), st).
Proof.
  intros H0 Hs Hc H1 H2.
  rewrite (getToken_fresh parse stringify env1 email s c st H0 Hs Hc H1). split; [reflexivity|].
  exact (getToken_fresh parse stringify env2 email s c st H0 Hs Hc H2).
Qed.

(** C10: a stored value longer than 10 code units that is not JSON (a raw
    token of an older version) is returned by [getToken] as the access
    token, while [hasToken] answers false for it. *)
Theorem legacy_raw_token_disagreement (parse : jstr -> option StoredCredential)
  (stringify : StoredCredential -> jstr) (env : host) (email s : jstr) (st : tstate) :
  secrets st !! key email = Some s -> parse s = None -> (10 < length s)%nat ->
  getToken parse stringify env email st = (Some s, st) /\
  hasToken parse env email st = (false, st).
Proof.
  intros Hs Hp Hl. destruct s as [|x s']; [simpl in Hl; lia|]. split.
  - unfold getToken, getToken_try. cbv [mbind M_bind mret M_ret secret_get]. rewrite Hs.
    cbn [truthy]. rewrite Hp. rewrite (proj2 (Nat.ltb_lt _ _) Hl). reflexivity.
  - unfold hasToken. cbv [mbind M_bind mret M_ret secret_get]. rewrite Hs.
    rewrite (proj2 (Nat.leb_gt _ _) Hl), Hp. reflexivity.
Qed.

(** C4: when the auth status row gives an email and an API key,
    [captureCurrentToken email] succeeds and stores the credential under
    the lowercased email of the active identity, whatever its argument; a
    mismatch warning is emitted exactly when the lowercased argument
    differs from that email. *)
Theorem capture_keys_by_active_identity (parse_auth : jstr -> option Auth.AuthStatus)
  (stringify : StoredCredential -> jstr) (env : host) (email : jstr)
  (a : Auth.AuthStatus) (e k : jstr) (st : tstate) :
  getAuthStatus parse_auth env = Some a -> Auth.email a = Some e -> Auth.apiKey a = Some k ->
  e <> [] -> k <> [] ->
  captureCurrentToken parse_auth stringify env email st =
    (true,
     {| secrets := <[key (toLowerCase e) :=
                      stringify {| accessToken := k;
                                   refreshToken := Extraction.getRefreshToken (oauthTokenRow env);
                                   expiresAt := now env + RECOVERY_TTL;
                                   email := toLowerCase e;
                                   createdAt := now env |}]> (secrets st);
        events := events st
                  ++ (if bool_decide (toLowerCase email = toLowerCase e) then []
                      else [EMismatchWarning (toLowerCase e) email])
                  ++ [EShowInfo] |}).
Proof.
  intros Ha He Hk Hne Hkne. unfold captureCurrentToken. rewrite Ha, He, Hk. cbn [option_map].
  destruct e as [|x e']; [congruence|]. destruct k as [|y k']; [congruence|].
  cbn [toLowerCase map truthy andb].
  cbv [mbind M_bind mret M_ret emit secret_store].
  destruct (bool_decide _); simpl; rewrite ?app_nil_r, <- ?app_assoc; reflexivity.
Qed.
(** Cached token, called at t = 0 and t = 60 s with expiry at 10^9 ms. *)
Lemma getToken_cached_twice_witness :
  getToken (parse0 (cred0 1000000000 None)) stringify0 (host0 0 None) (js "a@x.com")
    (state0 credText) = (Some (js "ya29.cached"), state0 credText) /\
  getToken (parse0 (cred0 1000000000 None)) stringify0 (host0 60000 None) (js "a@x.com")
    (snd (getToken (parse0 (cred0 1000000000 None)) stringify0 (host0 0 None) (js "a@x.com")
            (state0 credText)))
    = (Some (js "ya29.cached"), state0 credText).
Proof.
  apply (getToken_cached_twice _ _ _ _ _ credText (cred0 1000000000 None));
    vm_compute; reflexivity.
Defined.

(** Expired credential; the endpoint answers nothing and there is no store file. *)
Lemma getToken_refresh_then_recover_witness :
  getToken (parse0 (cred0 1000000000 (Some (js "1//refresh")))) stringify0
    (host0 2000000000 None) (js "a@x.com") (state0 credText)
  = (Some (js "ya29.cached"),
     {| secrets := secrets (state0 credText);
        events := [ERefresh; ERecover (js "a@x.com")] |}).
Proof.
  destruct (getToken_refresh_then_recover (parse0 (cred0 1000000000 (Some (js "1//refresh"))))
              stringify0 (host0 2000000000 None) (js "a@x.com") credText
              (cred0 1000000000 (Some (js "1//refresh"))) (state0 credText)
              ltac:(vm_compute; reflexivity) ltac:(vm_compute; reflexivity)
              ltac:(vm_compute; reflexivity) ltac:(vm_compute; reflexivity)) as [_ H].
  exact (proj2 (H ltac:(vm_compute; reflexivity)) ltac:(vm_compute; reflexivity)).
Defined.

(** Active identity [B@x.com], capture requested for [a@x.com]. *)
Lemma capture_keys_by_active_identity_witness :
  captureCurrentToken parseAuth0 stringify0 (host0 0 None) (js "a@x.com") (state0 credText)
  = (true, {| secrets := <[key (js "b@x.com") := credText]> (secrets (state0 credText));
              events := [EMismatchWarning (js "b@x.com") (js "a@x.com"); EShowInfo] |}).
Proof.
  rewrite (capture_keys_by_active_identity parseAuth0 stringify0 (host0 0 None) (js "a@x.com")
             {| Auth.email := Some (js "B@x.com"); Auth.apiKey := Some (js "ya29.key") |}
             (js "B@x.com") (js "ya29.key") (state0 credText)
             ltac:(vm_compute; reflexivity) eq_refl eq_refl
             ltac:(discriminate) ltac:(discriminate)).
  vm_compute. reflexivity.
Defined.

(** A raw token of 21 code units. *)
Lemma legacy_raw_token_disagreement_witness :
  getToken (parse0 (cred0 0 None)) stringify0 (host0 0 None) (js "a@x.com")
    (state0 (js "ya29.legacy-raw-token"))
    = (Some (js "ya29.legacy-raw-token"), state0 (js "ya29.legacy-raw-token")) /\
  hasToken (parse0 (cred0 0 None)) (host0 0 None) (js "a@x.com")
    (state0 (js "ya29.legacy-raw-token"))
    = (false, state0 (js "ya29.legacy-raw-token")).
Proof.
  apply legacy_raw_token_disagreement;
    [vm_compute; reflexivity | vm_compute; reflexivity | apply Nat.ltb_lt; vm_compute; reflexivity].
Defined.

End LifecycleProofs.

(** ** Account switching *)
Module SwitcherProofs.
Import Switcher Samples.

(** C3 (code bug): without a snapshot for the email nothing is run and
    the table is unchanged; with a snapshot whose blob is
    [{"email":"a@x.com"}], the command line built by [updateAuthStatus]
    puts the SQL text between shell double quotes and only doubles the
    single quotes, so the shell removes the blob's double quotes: the
    identity key is overwritten with [{email:a@x.com}], not with the
    snapshot's verbatim blob, and the switch reports success. *)
Theorem switch_writes_mangled_blob :
  (forall (dbPathForward : jstr) (snapshots : gmap jstr AccountSnapshot)
          (table : gmap jstr jstr) (email : jstr),
     snapshots !! email = None ->
     switchToAccount dbPathForward snapshots table email = Some (false, table, [])) /\
  switchToAccount dbPath0 snapshots0 table0 (js "a@x.com")
    = Some (true, <[AUTH_KEY := js "{email:a@x.com}"]> table0, [updateCommand dbPath0 blob]) /\
  js "{email:a@x.com}" <> blob /\ table0 !! AUTH_KEY = Some (js "{}").
Proof.
  split.
  - intros dbPathForward snapshots table email H.
    unfold switchToAccount, snapshot_get. rewrite H.
    destruct (bool_decide _); reflexivity.
  - split; [|split]; vm_compute; [reflexivity | discriminate | reflexivity].
Qed.

End SwitcherProofs.

(** ** Storing, deleting and obtaining credentials *)
Module LifecycleExtras.
Import Lifecycle.

(** [getToken] on a stored credential that is not within the skew of
    its expiry. *)
Lemma getToken_stored (parse : jstr -> option StoredCredential)
  (stringify : StoredCredential -> jstr) (env : host) (email s : jstr)
  (c : StoredCredential) (st : tstate) :
  s <> [] -> secrets st !! key email = Some s -> parse s = Some c ->
  now env <= expiresAt c - SKEW ->
  getToken parse stringify env email st = (Some (accessToken c), st).
Proof.
  intros Hne Hs Hc Ht.
  destruct s as [|x s']; [congruence|].
  unfold getToken, getToken_try. cbv [mbind M_bind mret M_ret secret_get]. rewrite Hs.
  cbn [truthy]. rewrite Hc.
  rewrite Z.gtb_ltb, (proj2 (Z.ltb_ge _ _)) by lia. reflexivity.
Qed.

Lemma parse_nonempty (parse : jstr -> option StoredCredential) (s : jstr) (c : StoredCredential) :
  parse [] = None -> parse s = Some c -> s <> [].
Proof. intros H0 Hs ->. congruence. Qed.

(** X1: a credential saved with [saveToken] as its JSON text is what
    [getToken] returns right away, while it is not within five minutes of
    its expiry; nothing is refreshed or recovered. *)
Theorem saveToken_getToken_roundtrip (parse : jstr -> option StoredCredential)
  (stringify : StoredCredential -> jstr) (env : host) (email : jstr)
  (c : StoredCredential) (st : tstate) :
  parse [] = None -> parse (stringify c) = Some c -> now env <= expiresAt c - SKEW ->
  let st' := snd (saveToken email (stringify c) st) in
  getToken parse stringify env email st' = (Some (accessToken c), st').
Proof.
  intros H0 Hc Ht st'.
  apply (getToken_stored parse stringify env email (stringify c) c st');
    [eapply parse_nonempty; eassumption | | exact Hc | exact Ht].
  subst st'. cbn. apply lookup_insert_eq.
Qed.

(** X2: after [deleteToken email], [hasToken] and [hasValidOAuth] answer
    false for [email], and the entries of the other keys are unchanged. *)
Theorem deleteToken_forgets (parse : jstr -> option StoredCredential) (env : host)
  (email : jstr) (st : tstate) :
  let st' := snd (deleteToken email st) in
  hasToken parse env email st' = (false, st') /\
  hasValidOAuth parse email st' = (false, st') /\
  (forall k, k <> key email -> secrets st' !! k = secrets st !! k) /\
  events st' = events st.
Proof.
  intros st'. split; [|split; [|split]].
  - unfold hasToken. cbv [mbind M_bind mret M_ret secret_get].
    subst st'. cbn. rewrite lookup_delete_eq. reflexivity.
  - unfold hasValidOAuth. cbv [mbind M_bind mret M_ret secret_get].
    subst st'. cbn. rewrite lookup_delete_eq. reflexivity.
  - intros k Hk. subst st'. cbn. apply lookup_delete_ne. intros E. apply Hk. symmetry. exact E.
  - reflexivity.
Qed.

(** X3: after [deleteToken email], [getToken email] runs the recovery: it
    returns the access token that the scan of state.vscdb finds at that
    moment, or null when it finds none; a found token is stored again
    under [email] as a new credential valid for 55 minutes. *)
Theorem deleteToken_then_getToken_recovers (parse : jstr -> option StoredCredential)
  (stringify : StoredCredential -> jstr) (env : host) (email : jstr) (st : tstate) :
  parse [] = None ->
  (forall t, Extraction.extractTokensFromDb (stateDb env) = Some t ->
     let c := {| accessToken := Extraction.dbAccessToken t;
                 refreshToken := Extraction.dbRefreshToken t;
                 expiresAt := now env + RECOVERY_TTL;
                 email := email;
                 createdAt := now env |} in
     parse (stringify c) = Some c) ->
  let r := getToken parse stringify env email (snd (deleteToken email st)) in
  fst r = option_map Extraction.dbAccessToken (Extraction.extractTokensFromDb (stateDb env)) /\
  secrets (snd r) !! key email =
    option_map (fun t => stringify {| accessToken := Extraction.dbAccessToken t;
                                      refreshToken := Extraction.dbRefreshToken t;
                                      expiresAt := now env + RECOVERY_TTL;
                                      email := email;
                                      createdAt := now env |})
               (Extraction.extractTokensFromDb (stateDb env)).
Proof.
  intros H0 Hrt r. subst r.
  unfold getToken. cbv [mbind M_bind mret M_ret secret_get].
  cbn [deleteToken secret_delete snd secrets]. rewrite lookup_delete_eq. cbn [truthy].
  unfold tryAutoRecovery. cbv [mbind M_bind mret M_ret emit secret_store].
  destruct (Extraction.extractTokensFromDb (stateDb env)) as [t|] eqn:Et.
  - specialize (Hrt t eq_refl). cbv zeta in Hrt.
    set (c := {| accessToken := Extraction.dbAccessToken t;
                 refreshToken := Extraction.dbRefreshToken t;
                 expiresAt := now env + RECOVERY_TTL;
                 email := email;
                 createdAt := now env |}) in *.
    cbn [secrets events]. rewrite lookup_insert_eq.
    pose proof (parse_nonempty parse _ _ H0 Hrt) as Hne.
    replace (match stringify c with [] => false | _ :: _ => true end) with true
      by (destruct (stringify c); [congruence | reflexivity]).
    unfold getToken_try. rewrite Hrt.
    rewrite Z.gtb_ltb, (proj2 (Z.ltb_ge _ _))
      by (subst c; cbn [expiresAt]; unfold RECOVERY_TTL, SKEW; lia).
    split; [reflexivity | cbn [fst snd secrets]; apply lookup_insert_eq].
  - cbn. rewrite lookup_delete_eq. split; reflexivity.
Qed.

(** X4: [hasValidOAuth] is stronger than [hasToken]: when it answers true
    for a stored value longer than 10 code units, [hasToken] answers true
    as well, whatever the time. *)
Theorem hasValidOAuth_implies_hasToken (parse : jstr -> option StoredCredential)
  (env : host) (email s : jstr) (st : tstate) :
  secrets st !! key email = Some s -> (10 < length s)%nat ->
  fst (hasValidOAuth parse email st) = true ->
  hasToken parse env email st = (true, st).
Proof.
  intros Hs Hl Hv.
  unfold hasValidOAuth, hasToken in *. cbv [mbind M_bind mret M_ret secret_get] in *.
  rewrite Hs in *. rewrite (proj2 (Nat.leb_gt _ _) Hl).
  destruct s as [|x s']; [simpl in Hl; lia|]. cbn [truthy] in Hv.
  destruct (parse (x :: s')) as [c|]; [|discriminate].
  cbn [fst] in Hv. rewrite Hv.
  destruct (now env <=? expiresAt c - SKEW); reflexivity.
Qed.


(** X6: when the exchange gives no access token (an error status, a
    thrown [fetch] or an answer without [access_token]),
    [exchangeCodeForToken] returns false, shows an error and leaves the
    secret store as it was. *)
Theorem exchangeCode_failure_keeps_store (stringify : StoredCredential -> jstr)
  (env : host) (codeExchange : jstr -> option TokenResponse) (code email : jstr)
  (st : tstate) :
  truthy (codeExchange code ≫= access_token) = false ->
  exchangeCodeForToken stringify env codeExchange code email st
    = (false, {| secrets := secrets st; events := events st ++ [EShowError] |}).
Proof.
  intros H. unfold exchangeCodeForToken.
  destruct (codeExchange code) as [data|]; [|reflexivity].
  cbn in H. destruct (access_token data) as [[|x a]|]; try reflexivity. discriminate.
Qed.

(** X7: when the input box is dismissed or left empty,
    [promptForAuthCode] returns false, shows the cancellation warning and
    neither calls the endpoint nor changes the secret store; any other
    input is trimmed and exchanged, so an input of blanks only reaches the
    endpoint as the empty code. *)
Theorem promptForAuthCode_cases (stringify : StoredCredential -> jstr) (env : host)
  (codeExchange : jstr -> option TokenResponse) (email : jstr) :
  (forall code st, truthy code = false ->
     promptForAuthCode stringify env codeExchange code email st
       = (false, {| secrets := secrets st; events := events st ++ [EShowWarning] |})) /\
  (forall c st, c <> [] ->
     promptForAuthCode stringify env codeExchange (Some c) email st
       = exchangeCodeForToken stringify env codeExchange (trim c) email st) /\
  (forall c st, c <> [] -> Forall (fun u => is_js_space u = true) c ->
     promptForAuthCode stringify env codeExchange (Some c) email st
       = exchangeCodeForToken stringify env codeExchange [] email st).
Proof.
  assert (Hp : forall c st, c <> [] ->
     promptForAuthCode stringify env codeExchange (Some c) email st
       = exchangeCodeForToken stringify env codeExchange (trim c) email st)
    by (intros [|x c] st Hc; [congruence | reflexivity]).
  split; [|split; [exact Hp|]].
  - intros code st H. unfold promptForAuthCode. rewrite H. reflexivity.
  - intros c st Hc Hs. rewrite Hp by exact Hc. f_equal.
    unfold trim.
    assert (Hd : drop_spaces c = []).
    { clear Hc Hp. induction Hs as [|u c Hu Hs IH]; [reflexivity|]. cbn. rewrite Hu. exact IH. }
    rewrite Hd. reflexivity.
Qed.

Import Samples.

(** A credential valid until 10^9 ms, saved and read at t = 0. *)
Lemma saveToken_getToken_roundtrip_witness :
  let st' := snd (saveToken (js "a@x.com") (stringify0 (cred0 1000000000 None)) (state0 [])) in
  getToken (parse0 (cred0 1000000000 None)) stringify0 (host0 0 None) (js "a@x.com") st'
    = (Some (accessToken (cred0 1000000000 None)), st').
Proof.
  exact (saveToken_getToken_roundtrip (parse0 (cred0 1000000000 None)) stringify0
           (host0 0 None) (js "a@x.com") (cred0 1000000000 None) (state0 [])
           ltac:(vm_compute; reflexivity) ltac:(vm_compute; reflexivity)
           ltac:(vm_compute; discriminate)).
Defined.

(** The store file [scanFile] at t = 0: the recovery finds the token at
    offset 500. *)
Lemma deleteToken_then_getToken_recovers_witness :
  fst (getToken (parse0 credRecovered) stringify0 (host0 0 (Some scanFile)) (js "a@x.com")
         (snd (deleteToken (js "a@x.com") (state0 credText))))
  = Some (bearer 66).
Proof.
  destruct (deleteToken_then_getToken_recovers (parse0 credRecovered) stringify0
              (host0 0 (Some scanFile)) (js "a@x.com") (state0 credText)
              ltac:(vm_compute; reflexivity)) as [H _].
  { intros t Ht. vm_compute in Ht. injection Ht as <-. vm_compute. reflexivity. }
  rewrite H. vm_compute. reflexivity.
Defined.

(** A stored credential with a refresh token, long expired at t = 10^10. *)
Lemma hasValidOAuth_implies_hasToken_witness :
  hasToken (parse0 (cred0 0 (Some (js "1//r")))) (host0 10000000000 None) (js "a@x.com")
    (state0 credText) = (true, state0 credText).
Proof.
  apply (hasValidOAuth_implies_hasToken (parse0 (cred0 0 (Some (js "1//r"))))
           (host0 10000000000 None) (js "a@x.com") credText (state0 credText)).
  - vm_compute. reflexivity.
  - apply Nat.ltb_lt. vm_compute. reflexivity.
  - vm_compute. reflexivity.
Defined.


(** A code the endpoint rejects. *)
Lemma exchangeCode_failure_keeps_store_witness :
  exchangeCodeForToken stringify0 (host0 0 None) exchange0 (js "4/other") (js "a@x.com")
    (state0 credText)
  = (false, {| secrets := secrets (state0 credText);
               events := events (state0 credText) ++ [EShowError] |}).
Proof.
  exact (exchangeCode_failure_keeps_store stringify0 (host0 0 None) exchange0 (js "4/other")
           (js "a@x.com") (state0 credText) ltac:(vm_compute; reflexivity)).
Defined.

End LifecycleExtras.

(** ** The SQL escaping and the snapshot store *)
Module SwitcherExtras.
Import Switcher.









Lemma loadSnapshots_saved (parse : jstr -> option (gmap jstr AccountSnapshot))
  (stringify : gmap jstr AccountSnapshot -> jstr) (m : gmap jstr AccountSnapshot) :
  loadSnapshots parse (saveSnapshots stringify m) = (m, saveSnapshots stringify m).
Proof. reflexivity. Qed.

Lemma saveSnapshot_run (parse : jstr -> option (gmap jstr AccountSnapshot))
  (stringify : gmap jstr AccountSnapshot -> jstr) (parse_id : jstr -> option Identity)
  (now : Z) (stdout : option jstr) (v : jstr) (st : swstate) :
  readAuthStatus stdout = Some v -> snapshotEmail parse_id v <> js "__proto__" ->
  saveSnapshot parse stringify parse_id now stdout st =
    Some (true, saveSnapshots stringify
                  (<[snapshotEmail parse_id v :=
                       {| email := snapshotEmail parse_id v; authStatus := v;
                          savedAt := now |}]> (fst (loadSnapshots parse st)))).
Proof.
  intros Hv He. unfold saveSnapshot. rewrite Hv.
  rewrite bool_decide_eq_false_2 by exact He.
  destruct (loadSnapshots parse st) as [m st1]. reflexivity.
Qed.

(** X9: when the SELECT gives an auth status [v] whose email is not
    [__proto__] (there the assignment would set the prototype of the
    snapshots object, which is not modelled), [saveSnapshot] returns
    true and records [v] under the email it reads from [v] ([email], else
    [name], else [unknown]), replacing an earlier snapshot of that key and
    keeping the others; the secret storage then holds the JSON of the new
    snapshots, the count grows by one exactly when the key is new, and
    [switchToAccount] finds the snapshot under that key. *)
Theorem saveSnapshot_records (parse : jstr -> option (gmap jstr AccountSnapshot))
  (stringify : gmap jstr AccountSnapshot -> jstr) (parse_id : jstr -> option Identity)
  (now : Z) (stdout : option jstr) (v : jstr) (st : swstate) :
  readAuthStatus stdout = Some v -> snapshotEmail parse_id v <> js "__proto__" ->
  let e := snapshotEmail parse_id v in
  let m := fst (loadSnapshots parse st) in
  let snap := {| email := e; authStatus := v; savedAt := now |} in
  exists st',
    saveSnapshot parse stringify parse_id now stdout st = Some (true, st') /\
    fst (getSnapshots parse st') = <[e := snap]> m /\
    storedSnapshots st' = Some (stringify (<[e := snap]> m)) /\
    fst (getSnapshotCount parse st') =
      match m !! e with
      | Some _ => fst (getSnapshotCount parse st)
      | None => S (fst (getSnapshotCount parse st))
      end /\
    snapshot_get (fst (getSnapshots parse st')) e = Own snap.
Proof.
  intros Hv He e m snap.
  eexists. split; [exact (saveSnapshot_run parse stringify parse_id now stdout v st Hv He)|].
  cbn [getSnapshots]. rewrite loadSnapshots_saved. cbn [fst].
  split; [reflexivity|]. split; [reflexivity|]. split.
  - unfold getSnapshotCount. rewrite loadSnapshots_saved. cbn [fst].
    subst m. destruct (loadSnapshots parse st) as [m0 st1]. cbn [fst].
    rewrite map_size_insert. destruct (m0 !! _); reflexivity.
  - unfold snapshot_get. rewrite lookup_insert_eq. reflexivity.
Qed.

(** X10: when the SELECT fails or prints only blanks, [saveSnapshot]
    returns false and changes nothing, not even the cache. *)
Theorem saveSnapshot_without_row (parse : jstr -> option (gmap jstr AccountSnapshot))
  (stringify : gmap jstr AccountSnapshot -> jstr) (parse_id : jstr -> option Identity)
  (now : Z) (stdout : option jstr) (st : swstate) :
  Forall (fun u => is_js_space u = true) (default [] stdout) ->
  saveSnapshot parse stringify parse_id now stdout st = Some (false, st).
Proof.
  intros Hs. unfold saveSnapshot.
  replace (readAuthStatus stdout) with (@None jstr); [reflexivity|].
  destruct stdout as [out|]; [|reflexivity]. simpl in Hs.
  unfold readAuthStatus, trim.
  assert (Hd : drop_spaces out = []).
  { induction Hs as [|u c Hu Hs IH]; [reflexivity|]. cbn. rewrite Hu. exact IH. }
  rewrite Hd. reflexivity.
Qed.

(** X11: [deleteSnapshot] of a name of [Object.prototype] (such as
    [constructor] or [toString]) with no snapshot reports a deletion and
    rewrites the snapshots unchanged, while [switchToAccount] of that name
    returns false without running any command: the inherited value is
    truthy but has no [authStatus], so [updateAuthStatus] throws and the
    catch returns false. *)
Theorem deleteSnapshot_prototype_name (parse : jstr -> option (gmap jstr AccountSnapshot))
  (stringify : gmap jstr AccountSnapshot -> jstr) (name : jstr) (st : swstate) :
  name ∈ objectPrototypeNames -> fst (loadSnapshots parse st) !! name = None ->
  deleteSnapshot parse stringify name st
    = (true, saveSnapshots stringify (fst (loadSnapshots parse st))) /\
  (forall dbPathForward table,
     switchToAccount dbPathForward (fst (loadSnapshots parse st)) table name
       = Some (false, table, [])).
Proof.
  intros Hn Hm. split.
  - unfold deleteSnapshot. destruct (loadSnapshots parse st) as [m st1]. cbn [fst] in *.
    unfold snapshot_get. rewrite Hm, bool_decide_eq_true_2 by exact Hn. reflexivity.
  - intros d t. unfold switchToAccount, snapshot_get. rewrite Hm.
    rewrite bool_decide_eq_true_2 by exact Hn. reflexivity.
Qed.

(** X12: for an auth status whose email is not [__proto__] (there the
    assignment would set the prototype of the snapshots object, which is
    not modelled), deleting the snapshot just saved returns true and
    leaves the other snapshots as they were before the save, without the
    saved key (an older snapshot of that key is gone as well);
    [switchToAccount] of that key then finds no snapshot and returns false
    without running a command, unless it is a name of [Object.prototype]. *)
Theorem saveSnapshot_then_delete (parse : jstr -> option (gmap jstr AccountSnapshot))
  (stringify : gmap jstr AccountSnapshot -> jstr) (parse_id : jstr -> option Identity)
  (now : Z) (stdout : option jstr) (v : jstr) (st : swstate) :
  readAuthStatus stdout = Some v -> snapshotEmail parse_id v <> js "__proto__" ->
  let e := snapshotEmail parse_id v in
  exists st' st'',
    saveSnapshot parse stringify parse_id now stdout st = Some (true, st') /\
    deleteSnapshot parse stringify e st' = (true, st'') /\
    fst (getSnapshots parse st'') = delete e (fst (loadSnapshots parse st)) /\
    (e ∉ objectPrototypeNames ->
     forall dbPathForward table,
       switchToAccount dbPathForward (fst (getSnapshots parse st'')) table e
         = Some (false, table, [])).
Proof.
  intros Hv He e.
  eexists. eexists. split; [exact (saveSnapshot_run parse stringify parse_id now stdout v st Hv He)|].
  split.
  - unfold deleteSnapshot. rewrite loadSnapshots_saved. unfold snapshot_get.
    rewrite lookup_insert_eq. reflexivity.
  - cbn [getSnapshots]. rewrite loadSnapshots_saved. cbn [fst].
    rewrite delete_insert_eq. split; [reflexivity|].
    intros Hn d t. unfold switchToAccount, snapshot_get.
    rewrite lookup_delete_eq, bool_decide_eq_false_2 by exact Hn. reflexivity.
Qed.

Import Samples.


Lemma saveSnapshot_records_witness :
  let e := snapshotEmail parseIdentity0 blob in
  let m := fst (loadSnapshots parseSnapshots0 swstate0) in
  let snap := {| email := e; authStatus := blob; savedAt := 7 |} in
  exists st',
    saveSnapshot parseSnapshots0 stringifySnapshots0 parseIdentity0 7 (Some (blob ++ [10]))
      swstate0 = Some (true, st') /\
    fst (getSnapshots parseSnapshots0 st') = <[e := snap]> m /\
    storedSnapshots st' = Some (stringifySnapshots0 (<[e := snap]> m)) /\
    fst (getSnapshotCount parseSnapshots0 st') =
      match m !! e with
      | Some _ => fst (getSnapshotCount parseSnapshots0 swstate0)
      | None => S (fst (getSnapshotCount parseSnapshots0 swstate0))
      end /\
    snapshot_get (fst (getSnapshots parseSnapshots0 st')) e = Own snap.
Proof.
  exact (saveSnapshot_records parseSnapshots0 stringifySnapshots0 parseIdentity0 7
           (Some (blob ++ [10])) blob swstate0
           ltac:(vm_compute; reflexivity) ltac:(vm_compute; discriminate)).
Defined.

(** The SELECT prints a blank line. *)
Lemma saveSnapshot_without_row_witness :
  saveSnapshot parseSnapshots0 stringifySnapshots0 parseIdentity0 7 (Some [32; 10]) swstate0
  = Some (false, swstate0).
Proof.
  exact (saveSnapshot_without_row parseSnapshots0 stringifySnapshots0 parseIdentity0 7
           (Some [32; 10]) swstate0 ltac:(repeat constructor)).
Defined.

(** [deleteSnapshot("constructor")] on the snapshots of [swstate0]. *)
Lemma deleteSnapshot_prototype_name_witness :
  deleteSnapshot parseSnapshots0 stringifySnapshots0 (js "constructor") swstate0
    = (true, saveSnapshots stringifySnapshots0 (fst (loadSnapshots parseSnapshots0 swstate0))) /\
  (forall dbPathForward table,
     switchToAccount dbPathForward (fst (loadSnapshots parseSnapshots0 swstate0)) table
       (js "constructor") = Some (false, table, [])).
Proof.
  apply (deleteSnapshot_prototype_name parseSnapshots0 stringifySnapshots0 (js "constructor")
           swstate0).
  - apply list_elem_of_In. left. reflexivity.
  - vm_compute. reflexivity.
Defined.

(** Save from [blob], then delete [a@x.com]. *)
Lemma saveSnapshot_then_delete_witness :
  let e := snapshotEmail parseIdentity0 blob in
  exists st' st'',
    saveSnapshot parseSnapshots0 stringifySnapshots0 parseIdentity0 7 (Some blob) swstate0
      = Some (true, st') /\
    deleteSnapshot parseSnapshots0 stringifySnapshots0 e st' = (true, st'') /\
    fst (getSnapshots parseSnapshots0 st'') = delete e (fst (loadSnapshots parseSnapshots0 swstate0)) /\
    (e ∉ objectPrototypeNames ->
     forall dbPathForward table,
       switchToAccount dbPathForward (fst (getSnapshots parseSnapshots0 st'')) table e
         = Some (false, table, [])).
Proof.
  exact (saveSnapshot_then_delete parseSnapshots0 stringifySnapshots0 parseIdentity0 7
           (Some blob) blob swstate0
           ltac:(vm_compute; reflexivity) ltac:(vm_compute; discriminate)).
Defined.

End SwitcherExtras.

(** ** The TLV decoder: errors and repeated fields *)
Module TLVExtras.
Import TLV Encode TLVProofs.

Lemma readVarint_go_err (l : buffer) : forall r sh pos e,
  readVarint_go l r sh pos = Err e <->
  e = TruncatedData /\ Forall (fun b => N.land b 128 <> 0%N) l.
Proof.
  induction l as [|b l IH]; intros r sh pos e; simpl.
  - split; [intros [= <-]; split; [reflexivity | constructor] | intros [-> _]; reflexivity].
  - destruct (N.land b 128 =? 0)%N eqn:E.
    + split; [discriminate|]. intros [_ Hf]. inversion Hf as [|? ? Hb]; subst.
      apply N.eqb_eq in E. contradiction.
    + rewrite IH. apply N.eqb_neq in E.
      split; [intros [-> Hf]; split; [reflexivity | constructor; assumption]|].
      intros [-> Hf]. inversion Hf; subst. split; [reflexivity | assumption].
Qed.

(** X13: [readVarint] throws exactly when every byte from [offset] to the
    end has its continuation bit (0x80) set, in particular when [offset]
    is at or past the end; the only error it raises is the one of an
    incomplete varint. *)
Theorem readVarint_error_cases (data : buffer) (offset : nat) :
  (forall e, readVarint data offset = Err e -> e = TruncatedData) /\
  ((exists e, readVarint data offset = Err e) <->
   Forall (fun b => N.land b 128 <> 0%N) (drop offset data)).
Proof.
  unfold readVarint. split.
  - intros e H. apply readVarint_go_err in H. apply H.
  - split.
    + intros [e H]. apply readVarint_go_err in H. apply H.
    + intros H. exists TruncatedData. apply readVarint_go_err. split; [reflexivity | exact H].
Qed.

(** One round of [parseOAuthTokenInfo] on any field of a valid message. *)
Lemma parseOAuth_step_field (pre : buffer) (f : field) (rest : buffer) (info : TokenInfo) :
  wf_field f ->
  parseOAuth_step (pre ++ encodeField f ++ rest) (length pre) info
  = Ok ((length pre + length (encodeField f))%nat,
        match fval f with
        | PLen b =>
            if (fnum f =? 1)%N then {| accessToken := Some (toString b);
                                       refreshToken := refreshToken info |}
            else if (fnum f =? 3)%N then {| accessToken := accessToken info;
                                            refreshToken := Some (toString b) |}
            else info
        | _ => info
        end).
Proof.
  intros Hf.
  destruct (field_step pre f rest Hf) as [H1 H2].
  pose proof (fieldNumOf_tag f 1 Hf ltac:(lia)) as E1.
  pose proof (fieldNumOf_tag f 3 Hf ltac:(lia)) as E3.
  change (Z.of_N 1) with 1 in E1. change (Z.of_N 3) with 3 in E3.
  rewrite wireTypeOf_tag in H2.
  unfold parseOAuth_step. rewrite H1, bind_Ok. cbv beta iota zeta.
  rewrite wireTypeOf_tag, E1, E3.
  destruct f as [n [v|b|b|b]]; cbn [fval fnum wt_of] in *;
    try (change (Z.of_N _ =? 2) with false; cbv iota; rewrite H2, bind_Ok; reflexivity).
  change (Z.of_N 2 =? 2) with true. cbv iota.
  unfold encodeField. simpl body_of.
  rewrite <- !app_assoc, (app_assoc pre), <- length_app.
  rewrite readVarint_encode, bind_Ok. cbv beta iota zeta.
  rewrite Nat2N.id, <- length_app, (app_assoc _ (encodeVarint _)), subarray_mid.
  replace (length ((pre ++ encodeVarint (tag_of {| fnum := n; fval := PLen b |}))
                   ++ encodeVarint (N.of_nat (length b))) + length b)%nat
    with (length pre + length (encodeVarint (tag_of {| fnum := n; fval := PLen b |})
                               ++ encodeVarint (N.of_nat (length b)) ++ b))%nat
    by (rewrite !length_app; lia).
  destruct (n =? 1)%N; [reflexivity|]. destruct (n =? 3)%N; reflexivity.
Qed.

Lemma parseOAuth_loop_encode (fs : list field) : forall pre fuel info,
  Forall wf_field fs -> (length fs < fuel)%nat ->
  parseOAuth_loop fuel (pre ++ encodeMessage fs) (length pre) info =
    {| accessToken := match lastLengthDelimited fs 1 with
                      | Some b => Some (toString b)
                      | None => accessToken info
                      end;
       refreshToken := match lastLengthDelimited fs 3 with
                       | Some b => Some (toString b)
                       | None => refreshToken info
                       end |}.
Proof.
  induction fs as [|f fs IH]; intros pre fuel info Hwf Hfuel;
    destruct fuel as [|fuel]; try (simpl in Hfuel; lia).
  - cbn [parseOAuth_loop]. simpl encodeMessage. rewrite app_nil_r.
    rewrite Nat.ltb_irrefl. destruct info; reflexivity.
  - inversion Hwf as [|? ? Hf Hfs]; subst.
    cbn [parseOAuth_loop]. rewrite encodeMessage_cons.
    pose proof (encodeField_length f) as Hl.
    rewrite (proj2 (Nat.ltb_lt _ _)) by (rewrite !length_app; lia).
    rewrite parseOAuth_step_field by exact Hf. cbv iota.
    replace (length pre + length (encodeField f))%nat with (length (pre ++ encodeField f))
      by apply length_app.
    rewrite app_assoc, IH by (auto; simpl in Hfuel; lia).
    cbn [lastLengthDelimited].
    destruct (lastLengthDelimited fs 1) as [b1|]; destruct (lastLengthDelimited fs 3) as [b3|];
      destruct f as [n [v|b|b|b]]; cbn [fval fnum];
      try reflexivity;
      destruct (n =? 1)%N eqn:E1; destruct (n =? 3)%N eqn:E3; try reflexivity;
      apply N.eqb_eq in E1; apply N.eqb_eq in E3; lia.
Qed.

(** X14: on a valid protobuf message, [parseOAuthTokenInfo] reports the
    last length-delimited field 1 as the access token and the last
    length-delimited field 3 as the refresh token (a later field
    overrides an earlier one), skips every other field, and leaves a
    token absent when no such field occurs. *)
Theorem parseOAuthTokenInfo_last_wins (fs : list field) :
  Forall wf_field fs ->
  parseOAuthTokenInfo (encodeMessage fs) =
    {| accessToken := option_map toString (lastLengthDelimited fs 1);
       refreshToken := option_map toString (lastLengthDelimited fs 3) |}.
Proof.
  intros Hwf. unfold parseOAuthTokenInfo.
  rewrite (parseOAuth_loop_encode fs [] _ emptyInfo Hwf)
    by (pose proof (encodeMessage_length fs); lia).
  destruct (lastLengthDelimited fs 1); destruct (lastLengthDelimited fs 3); reflexivity.
Qed.

(** Field 1 twice around a varint field, then field 3. *)
Lemma parseOAuthTokenInfo_last_wins_witness :
  parseOAuthTokenInfo (encodeMessage Samples.tokenFields) =
    {| accessToken := option_map toString (lastLengthDelimited Samples.tokenFields 1);
       refreshToken := option_map toString (lastLengthDelimited Samples.tokenFields 3) |}.
Proof.
  apply parseOAuthTokenInfo_last_wins.
  repeat constructor; vm_compute; reflexivity.
Defined.

End TLVExtras.

(** ** What the store-file scans return *)
Module ExtractionExtras.
Import TLV Extraction.

Lemma exec_all_in (m : matcher) (fuel : nat) : forall s index i t,
  In (i, t) (exec_all fuel m s index) -> exists s' len, m s' = Some (len, t).
Proof.
  induction fuel as [|fuel IH]; intros s index i t H; [destruct H|].
  destruct s as [|c s']; [destruct H|]. cbn [exec_all] in H.
  destruct (m (c :: s')) as [[len text]|] eqn:Em.
  - destruct H as [[= <- <-] | H]; [eauto | eapply IH; exact H].
  - eapply IH; exact H.
Qed.

Lemma firstMatch_some (m : matcher) (s : jstr) (t : jstr) :
  firstMatch m s = Some t -> exists s' len, m s' = Some (len, t).
Proof.
  induction s as [|c s IH]; [discriminate|]. cbn [firstMatch].
  destruct (m (c :: s)) as [[len text]|] eqn:Em; [intros [= <-]; eauto | exact IH].
Qed.

Lemma run_le (p : Z -> bool) (s : jstr) : (run p s <= length s)%nat.
Proof. induction s as [|c s IH]; simpl; [lia|]. destruct (p c); simpl; lia. Qed.

Lemma firstn_run (p : Z -> bool) (s : jstr) (k : nat) :
  (k <= run p s)%nat -> Forall (fun c => p c = true) (firstn k s).
Proof.
  revert k. induction s as [|c s IH]; intros k Hk; [rewrite firstn_nil; constructor|].
  destruct k as [|k]; [constructor|]. cbn [run] in Hk. cbn [firstn].
  destruct (p c) eqn:E; [|lia]. constructor; [exact E | apply IH; lia].
Qed.

Lemma prefixb_spec (p s : jstr) : prefixb p s = true -> s = p ++ drop (length p) s.
Proof.
  revert s. induction p as [|a p IH]; intros s H; [reflexivity|].
  destruct s as [|b s]; [discriminate|]. cbn [prefixb] in H.
  apply andb_true_iff in H as [Hab Hp]. apply Z.eqb_eq in Hab. subst b.
  cbn. f_equal. apply IH, Hp.
Qed.

(** A match of [prefix [class]{lo,}]: the prefix, then at least [lo]
    units of the class. *)
Lemma rep_match_text (p : jstr) (cls : Z -> bool) (lo : nat) (s : jstr) (len : nat) (t : jstr) :
  rep_match p cls lo None s = Some (len, t) ->
  exists rest, t = p ++ rest /\ (lo <= length rest)%nat /\ Forall (fun c => cls c = true) rest.
Proof.
  unfold rep_match. destruct (prefixb p s) eqn:Hp; [|discriminate].
  destruct (Nat.leb lo (run cls (drop (length p) s))) eqn:Hlo; [|discriminate].
  intros [= _ <-]. apply Nat.leb_le in Hlo.
  set (n := run cls (drop (length p) s)) in *.
  exists (firstn n (drop (length p) s)).
  rewrite (prefixb_spec p s Hp) at 1. rewrite firstn_app_2.
  split; [reflexivity|]. split.
  - rewrite length_firstn. pose proof (run_le cls (drop (length p) s)). lia.
  - apply firstn_run. subst n. lia.
Qed.

Lemma matchAll_rep (p : jstr) (cls : Z -> bool) (lo : nat) (s : jstr) (i : nat) (t : jstr) :
  In (i, t) (matchAll (rep_match p cls lo None) s) ->
  exists rest, t = p ++ rest /\ (lo <= length rest)%nat /\ Forall (fun c => cls c = true) rest.
Proof.
  intros H. apply exec_all_in in H as (s' & len & Hm). eapply rep_match_text; exact Hm.
Qed.

Lemma allTokensOf_ya29 (content : jstr) (i : nat) (t : jstr) :
  In (i, t) (allTokensOf content) ->
  exists rest, t = js "ya29." ++ rest /\ (100 < length t)%nat.
Proof.
  unfold allTokensOf. rewrite in_app_iff. intros [H | H].
  - unfold base64Tokens in H. apply in_flat_map in H as [[index text] [_ H]].
    destruct (firstMatch ya29Regex _) as [token|] eqn:Ef; [|destruct H].
    destruct (Nat.ltb 100 (length token)) eqn:Hl; [|destruct H].
    destruct H as [[= _ <-] | []].
    apply firstMatch_some in Ef as (s' & len & Hm).
    apply rep_match_text in Hm as (rest & -> & _ & _).
    exists rest. split; [reflexivity|]. apply Nat.ltb_lt. exact Hl.
  - apply matchAll_rep in H as (rest & -> & Hl & _).
    exists rest. split; [reflexivity|]. rewrite length_app. simpl. lia.
Qed.

(** X15: every access token the scan of state.vscdb returns starts with
    [ya29.] and is longer than 100 code units; hence it is never empty,
    and the deprecated [extractTokenFromDb] returns exactly the access
    token of [extractTokensFromDb], null when that finds nothing. *)
Theorem scan_access_token_shape (file : option buffer) :
  extractTokenFromDb file = option_map dbAccessToken (extractTokensFromDb file) /\
  (forall t, extractTokensFromDb file = Some t ->
     exists rest, dbAccessToken t = js "ya29." ++ rest /\ (100 < length (dbAccessToken t))%nat).
Proof.
  assert (Hshape : forall t, extractTokensFromDb file = Some t ->
     exists rest, dbAccessToken t = js "ya29." ++ rest /\ (100 < length (dbAccessToken t))%nat).
  { intros t. unfold extractTokensFromDb. destruct file as [fb|]; [|discriminate].
    destruct (last_elem (sort_by_index (allTokensOf (toString fb)))) as [[i tk]|] eqn:El;
      [|discriminate].
    intros [= <-]. cbn [dbAccessToken].
    apply ScanProofs.last_of_sorted_max in El as [Hin _].
    exact (allTokensOf_ya29 _ _ _ Hin). }
  split; [|exact Hshape].
  unfold extractTokenFromDb. destruct (extractTokensFromDb file) as [t|] eqn:E; [|reflexivity].
  destruct (Hshape t eq_refl) as (rest & Ht & _). cbn [option_map]. rewrite Ht. reflexivity.
Qed.

Lemma length_firstn_run (p : Z -> bool) (s : jstr) :
  length (firstn (run p s) s) = run p s.
Proof. rewrite length_firstn. pose proof (run_le p s). lia. Qed.

Lemma domain_try_spec (s : jstr) (j : nat) : forall m,
  domain_try j s = Some m ->
  exists d tld, firstn m s = d ++ 46 :: tld /\ d = firstn (length d) s /\
    (1 <= length d <= j)%nat /\ (2 <= length tld)%nat /\
    Forall (fun c => is_alpha c = true) tld.
Proof.
  induction j as [|j IH]; intros m H; [discriminate|]. cbn [domain_try] in H.
  destruct (drop (S j) s) as [|c r] eqn:Ed; [apply IH in H as (d & tld & ?); exists d, tld; intuition lia|].
  destruct (decide (c = 46)) as [->|Hc].
  - destruct (Nat.leb 2 (run is_alpha r) && (nth (run is_alpha r) r 0 =? 34)) eqn:Ec.
    + injection H as <-. apply andb_true_iff in Ec as [E2 _]. apply Nat.leb_le in E2.
      assert (Hlen : (S j < length s)%nat).
      { pose proof (f_equal (@length Z) Ed) as L. rewrite length_drop in L. simpl in L. lia. }
      exists (firstn (S j) s), (firstn (run is_alpha r) r).
      rewrite length_firstn, Nat.min_l by lia.
      split; [|split; [reflexivity | split; [lia | split]]].
      * replace (S (j + 1 + run is_alpha r))%nat with (S j + (1 + run is_alpha r))%nat by lia.
        rewrite <- (take_take_drop s (S j) (1 + run is_alpha r)), Ed. reflexivity.
      * rewrite length_firstn_run. exact E2.
      * apply firstn_run. lia.
    + apply IH in H as (d & tld & ?). exists d, tld. intuition lia.
  - assert (Hd : domain_try j s = Some m).
    { destruct c as [|[p|p|]|p]; try exact H;
        repeat (destruct p as [p|p|]; try exact H); exfalso; apply Hc; reflexivity. }
    apply IH in Hd as (d & tld & ?). exists d, tld. intuition lia.
Qed.

(** The text group 1 of [emailRegex] captures. *)
Lemma emailRegex_group (s : jstr) (len : nat) (g : jstr) :
  emailRegex s = Some (len, g) ->
  exists l d tld, g = l ++ 64 :: d ++ 46 :: tld /\
    l <> [] /\ Forall (fun c => is_local c = true) l /\
    d <> [] /\ Forall (fun c => is_domain c = true) d /\
    (2 <= length tld)%nat /\ Forall (fun c => is_alpha c = true) tld.
Proof.
  unfold emailRegex. cbv zeta.
  destruct (prefixb _ s); [|discriminate].
  destruct (drop _ (drop _ s)) as [|c s3]; [discriminate|].
  destruct (decide (c = 58)) as [->|Hc];
    [|destruct c as [|[p|p|]|p]; try discriminate;
      repeat (destruct p as [p|p|]; try discriminate); exfalso; apply Hc; reflexivity].
  destruct (drop _ s3) as [|c s5]; [discriminate|].
  destruct (decide (c = 34)) as [->|Hc];
    [|destruct c as [|[p|p|]|p]; try discriminate;
      repeat (destruct p as [p|p|]; try discriminate); exfalso; apply Hc; reflexivity].
  destruct (Nat.leb 1 (run is_local s5)) eqn:Hn; [|discriminate].
  apply Nat.leb_le in Hn.
  destruct (drop (run is_local s5) s5) as [|c s6] eqn:Ed; [discriminate|].
  destruct (decide (c = 64)) as [->|Hc];
    [|destruct c as [|[p|p|]|p]; try discriminate;
      repeat (destruct p as [p|p|]; try discriminate); exfalso; apply Hc; reflexivity].
  destruct (domain_try (run is_domain s6) s6) as [m|] eqn:Hm; [|discriminate].
  intros [= _ <-].
  apply domain_try_spec in Hm as (d & tld & Hdt & Hd & Hdl & Htl & Hta).
  exists (firstn (run is_local s5) s5), d, tld.
  assert (Hlen : length (firstn (run is_local s5) s5) = run is_local s5)
    by apply length_firstn_run.
  split; [|split; [|split; [apply firstn_run; lia | split; [|split; [|split; [exact Htl | exact Hta]]]]]].
  - replace (run is_local s5 + 1 + m)%nat with (run is_local s5 + (1 + m))%nat by lia.
    rewrite <- (take_take_drop s5 (run is_local s5) (1 + m)), Ed. change (take (1 + m) (64 :: s6)) with (64 :: take m s6). rewrite Hdt. reflexivity.
  - intros E. rewrite E in Hlen. simpl in Hlen. lia.
  - intros ->. simpl in Hdl. lia.
  - rewrite Hd. apply firstn_run. lia.
Qed.

Lemma lower_local (c : Z) :
  is_local c = true ->
  let c' := (if (65 <=? c) && (c <=? 90) then c + 32 else c) in is_local c' && negb (in_range 65 90 c') = true.
Proof.
  unfold is_local, in_range. cbv zeta. intros H.
  destruct ((65 <=? c) && (c <=? 90)) eqn:E;
    repeat rewrite ?orb_true_iff, ?andb_true_iff, ?negb_true_iff, ?andb_false_iff,
      ?orb_false_iff, ?Z.leb_le, ?Z.leb_gt, ?Z.eqb_eq, ?Z.eqb_neq in *; lia.
Qed.

Lemma lower_domain (c : Z) :
  is_domain c = true ->
  let c' := (if (65 <=? c) && (c <=? 90) then c + 32 else c) in is_domain c' && negb (in_range 65 90 c') = true.
Proof.
  unfold is_domain, in_range. cbv zeta. intros H.
  destruct ((65 <=? c) && (c <=? 90)) eqn:E;
    repeat rewrite ?orb_true_iff, ?andb_true_iff, ?negb_true_iff, ?andb_false_iff,
      ?orb_false_iff, ?Z.leb_le, ?Z.leb_gt, ?Z.eqb_eq, ?Z.eqb_neq in *; lia.
Qed.

Lemma lower_alpha (c : Z) : is_alpha c = true -> in_range 97 122 (if (65 <=? c) && (c <=? 90) then c + 32 else c) = true.
Proof.
  unfold is_alpha, in_range. intros H.
  destruct ((65 <=? c) && (c <=? 90)) eqn:E;
    repeat rewrite ?orb_true_iff, ?andb_true_iff, ?negb_true_iff, ?andb_false_iff,
      ?orb_false_iff, ?Z.leb_le, ?Z.leb_gt, ?Z.eqb_eq, ?Z.eqb_neq in *; lia.
Qed.

Lemma lowered_group_shape (s : jstr) (len : nat) (g : jstr) :
  emailRegex s = Some (len, g) ->
  exists l d tld, toLowerCase g = l ++ [64] ++ d ++ [46] ++ tld /\
    l <> [] /\ d <> [] /\ (2 <= length tld)%nat /\
    Forall (fun c => is_local c && negb (in_range 65 90 c) = true) l /\
    Forall (fun c => is_domain c && negb (in_range 65 90 c) = true) d /\
    Forall (fun c => in_range 97 122 c = true) tld.
Proof.
  intros H. apply emailRegex_group in H as (l & d & tld & -> & Hl & Hlf & Hd & Hdf & Ht & Htf).
  set (lower := fun c => (if (65 <=? c) && (c <=? 90) then c + 32 else c)).
  exists (map lower l), (map lower d), (map lower tld).
  unfold toLowerCase. rewrite map_app. cbn [map]. rewrite map_app. cbn [map].
  split; [reflexivity|].
  split; [intros E; apply map_eq_nil in E; contradiction|].
  split; [intros E; apply map_eq_nil in E; contradiction|].
  split; [rewrite length_map; exact Ht|].
  split; [|split]; apply Forall_map; eapply Forall_impl; try eassumption.
  - exact lower_local.
  - exact lower_domain.
  - exact lower_alpha.
Qed.

Lemma emailIn_shape (range r : jstr) : emailIn range = Some r -> email_shape r.
Proof.
  unfold emailIn. destruct (firstMatch emailRegex range) as [g|] eqn:E; [|discriminate].
  destruct (truthy (Some g)); [|discriminate]. intros [= <-].
  apply firstMatch_some in E as (s' & len & Hm).
  exact (lowered_group_shape _ _ _ Hm).
Qed.

Lemma fallbackEmails_in (content : jstr) (i : nat) (e : jstr) :
  In (i, e) (fallbackEmails content) <->
  exists g, In (i, g) (matchAll emailRegex content) /\ e = toLowerCase g /\
    includes e (js "rerevolve") = false /\ includes e (js "token.") = false.
Proof.
  unfold fallbackEmails.
  rewrite <- list_elem_of_In, list_elem_of_filter, list_elem_of_In, in_map_iff. split.
  - intros [Hf ([j g] & Eq & Hin)]. injection Eq as -> <-. cbv beta iota in Hf.
    destruct (includes (toLowerCase g) (js "rerevolve")), (includes (toLowerCase g) (js "token."));
      cbn in Hf; try contradiction.
    exists g. auto.
  - intros (g & Hin & -> & H1 & H2). split.
    + cbv beta iota. rewrite H1, H2. exact I.
    + exists (i, g). auto.
Qed.

Lemma fallbackEmails_nil (content : jstr) :
  fallbackEmails content = [] <->
  Forall (fun '(_, g) =>
    includes (toLowerCase g) (js "rerevolve") || includes (toLowerCase g) (js "token.") = true)
    (matchAll emailRegex content).
Proof.
  unfold fallbackEmails. induction (matchAll emailRegex content) as [|[i g] l IH].
  - split; constructor.
  - cbn [map]. rewrite filter_cons, List.Forall_cons_iff, <- IH.
    destruct (decide _) as [Hp|Hp]; cbv beta iota in Hp |- *;
    destruct (includes (toLowerCase g) (js "rerevolve")), (includes (toLowerCase g) (js "token."));
      cbn in Hp |- *; try contradiction; split; intuition (try discriminate).
    all: exfalso; apply Hp; exact I.
Qed.

Lemma getCurrentLoggedInEmail_fallback_path (buf : buffer) :
  indexOf (toString buf) (js "tfa.lastUserInfo") = None ->
  indexOf (toString buf) (js "antigravityAuthStatus") = None ->
  indexOf (toString buf) tierProMarker = None ->
  getCurrentLoggedInEmail (Some buf) =
  option_map snd (last_elem (sort_by_index (fallbackEmails (toString buf)))).
Proof.
  intros H1 H2 H3. unfold getCurrentLoggedInEmail. cbv zeta.
  rewrite H1, H2, H3. destruct (last_elem _) as [[]|]; reflexivity.
Qed.

(** X16: whatever [getCurrentLoggedInEmail] returns, from one of the three
    marker windows or from the fallback over all matches, is a lowercased
    email address as the regex admits it: local part, [@], domain, a dot
    and at least two lowercase letters. *)
Theorem getCurrentLoggedInEmail_shape (file : option buffer) (r : jstr) :
  getCurrentLoggedInEmail file = Some r -> email_shape r.
Proof.
  unfold getCurrentLoggedInEmail. destruct file as [buf|]; [|discriminate]. cbv zeta.
  destruct (match indexOf _ (js "tfa.lastUserInfo") with Some i => _ | None => None end)
    as [e|] eqn:E1.
  { intros [= <-]. revert E1. destruct (indexOf _ (js "tfa.lastUserInfo"));
      [apply emailIn_shape | intros; discriminate]. }
  destruct (match indexOf _ (js "antigravityAuthStatus") with Some i => _ | None => None end)
    as [e|] eqn:E2.
  { intros [= <-]. revert E2. destruct (indexOf _ (js "antigravityAuthStatus"));
      [apply emailIn_shape | intros; discriminate]. }
  destruct (match indexOf _ tierProMarker with Some i => _ | None => None end)
    as [e|] eqn:E3.
  { intros [= <-]. revert E3. destruct (indexOf _ tierProMarker);
      [apply emailIn_shape | intros; discriminate]. }
  destruct (last_elem _) as [[i e]|] eqn:El; [|discriminate]. intros [= <-].
  apply ScanProofs.last_of_sorted_max in El as [Hin _].
  apply fallbackEmails_in in Hin as (g & Hg & -> & _).
  unfold matchAll in Hg. apply exec_all_in in Hg as (s' & len & Hm).
  exact (lowered_group_shape _ _ _ Hm).
Qed.

(** X17: when none of the three markers occurs in the file, the result is the
    lowercased text of the match at the greatest index among those whose
    lowercase includes neither [rerevolve] nor [token.], and no email at
    all when every match includes one of them. *)
Theorem getCurrentLoggedInEmail_fallback (buf : buffer) :
  indexOf (toString buf) (js "tfa.lastUserInfo") = None ->
  indexOf (toString buf) (js "antigravityAuthStatus") = None ->
  indexOf (toString buf) tierProMarker = None ->
  (getCurrentLoggedInEmail (Some buf) = None <->
   Forall (fun '(_, g) =>
     includes (toLowerCase g) (js "rerevolve") || includes (toLowerCase g) (js "token.") = true)
     (matchAll emailRegex (toString buf))) /\
  (forall e, getCurrentLoggedInEmail (Some buf) = Some e ->
   exists i g, In (i, g) (matchAll emailRegex (toString buf)) /\ e = toLowerCase g /\
     includes e (js "rerevolve") = false /\ includes e (js "token.") = false /\
     forall j g', In (j, g') (matchAll emailRegex (toString buf)) ->
       includes (toLowerCase g') (js "rerevolve") = false ->
       includes (toLowerCase g') (js "token.") = false -> (j <= i)%nat).
Proof.
  intros H1 H2 H3. rewrite (getCurrentLoggedInEmail_fallback_path buf H1 H2 H3).
  split.
  - rewrite <- fallbackEmails_nil. split.
    + destruct (fallbackEmails (toString buf)) as [|x l] eqn:E; [reflexivity|].
      destruct (ScanProofs.last_elem_some (sort_by_index (x :: l))) as [y Hy].
      { apply ScanProofs.sort_by_index_nonempty. discriminate. }
      rewrite Hy. discriminate.
    + intros ->. reflexivity.
  - intros e. destruct (last_elem _) as [[i e']|] eqn:El; [|discriminate]. intros [= <-].
    apply ScanProofs.last_of_sorted_max in El as [Hin Hmax].
    pose proof Hin as Hin'. apply fallbackEmails_in in Hin' as (g & Hg & -> & Hr & Ht).
    exists i, g. do 4 (split; [assumption || reflexivity|]).
    intros j g' Hj Hr' Ht'.
    apply (Hmax (j, toLowerCase g')). apply fallbackEmails_in. exists g'. auto.
Qed.

(** The email after [tfa.lastUserInfo] in [emailFile]. *)
Lemma getCurrentLoggedInEmail_shape_witness :
  email_shape (js "alice.b@mail.example.com").
Proof.
  apply (getCurrentLoggedInEmail_shape (Some Samples.emailFile)).
  vm_compute. reflexivity.
Defined.

(** [fallbackFile]: no marker, two matches, the later one excluded. *)
Lemma getCurrentLoggedInEmail_fallback_witness :
  (getCurrentLoggedInEmail (Some Samples.fallbackFile) = None <->
   Forall (fun '(_, g) =>
     includes (toLowerCase g) (js "rerevolve") || includes (toLowerCase g) (js "token.") = true)
     (matchAll emailRegex (toString Samples.fallbackFile))) /\
  (forall e, getCurrentLoggedInEmail (Some Samples.fallbackFile) = Some e ->
   exists i g, In (i, g) (matchAll emailRegex (toString Samples.fallbackFile)) /\
     e = toLowerCase g /\
     includes e (js "rerevolve") = false /\ includes e (js "token.") = false /\
     forall j g', In (j, g') (matchAll emailRegex (toString Samples.fallbackFile)) ->
       includes (toLowerCase g') (js "rerevolve") = false ->
       includes (toLowerCase g') (js "token.") = false -> (j <= i)%nat).
Proof.
  apply getCurrentLoggedInEmail_fallback; vm_compute; reflexivity.
Defined.

End ExtractionExtras.

(** ** The extraction strategies together *)
Module PipelineClaims.
Import TLV Encode Extraction TLVProofs TLVExtras.







End PipelineClaims.
